(** * eslmon: a FreeSWITCH event-socket monitor

    A shallow embedding of the Go packages [eslmon/internal] (frame
    transport, response model, handshake) and [eslmon] (event model,
    subscribers, subscription command, streaming loop), followed by the
    properties established about them.

    Conventions.
    - A Go [string] and a Go [[]byte] are both finite byte sequences; both
      are represented by [string] (a sequence of 8-bit [ascii]).
    - Go's [int] is taken to be 64 bits wide and is represented by [Z].
    - A function that returns [(T, error)] returns a pair whose second
      component is [option error]; [None] is Go's [nil] error.
    - The reader side of a connection is the sequence of bytes that the peer
      will still deliver, followed by a sticky terminal error (end of stream,
      or the error of a closed socket).  The writer side is the sequence of
      bytes flushed so far.
    - A call that panics does not return: its result is [None].  The
      panics modelled are that of [newSubscriber] on a [nil] channel and that
      of [make] in [Read], for a declared content length above the runtime's
      bound on one allocation; below that bound the memory is taken to be
      there.
    - Loops that consume the byte stream are defined with a fuel argument,
      and [None] is also what they give when the fuel runs out.  The entry
      points supply enough fuel, and this is proved: with it, [None] is a
      panic and nothing else ([Read_None], [Run_stream_returns]). *)

From Stdlib Require Import ZArith Ascii String List Lia Bool.
From stdpp Require Import base option list strings gmap.

Local Open Scope string_scope.
Local Open Scope Z_scope.

(** ** Byte-string helpers (Go's [strings] and [bytes] packages) *)

Module bytes.

Definition LF : ascii := "010"%char.
Definition CR : ascii := "013"%char.
Definition TAB : ascii := "009"%char.
Definition SP : ascii := " "%char.
Definition CRLF : string := String CR (String LF EmptyString).

Definition len (s : string) : Z := Z.of_nat (String.length s).

(** [s[:n]] *)
Fixpoint take (n : nat) (s : string) : string :=
  match n, s with
  | S n', String c s' => String c (take n' s')
  | _, _ => EmptyString
  end.

(** [s[n:]] *)
Fixpoint drop (n : nat) (s : string) : string :=
  match n, s with
  | S n', String _ s' => drop n' s'
  | _, _ => s
  end.

(** [bytes.IndexByte]: index of the first occurrence of [c], or -1. *)
Fixpoint IndexByte (b : string) (c : ascii) : Z :=
  match b with
  | EmptyString => -1
  | String x b' =>
      if Ascii.eqb x c then 0
      else let i := IndexByte b' c in if i <? 0 then -1 else i + 1
  end.

(** [strings.CutPrefix]: the remainder after [prefix] when [s] starts with
    it, and [s] itself with [false] otherwise. *)
Fixpoint CutPrefix (s prefix : string) : string * bool :=
  match prefix, s with
  | EmptyString, _ => (s, true)
  | String p prefix', String c s' =>
      if Ascii.eqb c p then
        let '(rest, ok) := CutPrefix s' prefix' in
        if ok then (rest, true) else (s, false)
      else (s, false)
  | String _ _, EmptyString => (s, false)
  end.

Definition HasPrefix (s prefix : string) : bool := snd (CutPrefix s prefix).

(** ASCII case folding of one byte. *)
Definition lower (c : ascii) : ascii :=
  let n := N_of_ascii c in
  if ((65 <=? n) && (n <=? 90))%N then ascii_of_N (n + 32) else c.

(** [strings.EqualFold] for a pure-ASCII second argument whose letters have
    no non-ASCII case variants; the code only calls it with ["all"], for
    which Unicode simple folding and ASCII folding coincide (the orbits of
    [a] and [l] are [{a, A}] and [{l, L}]). *)
Fixpoint EqualFold (s t : string) : bool :=
  match s, t with
  | EmptyString, EmptyString => true
  | String a s', String b t' => Ascii.eqb (lower a) (lower b) && EqualFold s' t'
  | _, _ => false
  end.

(** The bytes before the first line feed and, when there is one, the bytes
    after it. *)
Fixpoint cut_newline (s : string) : string * option string :=
  match s with
  | EmptyString => (EmptyString, None)
  | String c s' =>
      if Ascii.eqb c LF then (EmptyString, Some s')
      else let '(l, rest) := cut_newline s' in (String c l, rest)
  end.

(** Drops one trailing carriage return. *)
Fixpoint drop_last_CR (s : string) : string :=
  match s with
  | EmptyString => EmptyString
  | String c EmptyString => if Ascii.eqb c CR then EmptyString else s
  | String c s' => String c (drop_last_CR s')
  end.

End bytes.

(** ** Error values *)

Module errs.

(** The error values the program meets: the sentinels of [io] and of
    package [internal], [errors.New], [fmt.Errorf] with its format and its
    single operand ([%s], [%q] or [%w]), and the error of
    [json.Unmarshal] (a [*json.SyntaxError] or a
    [*json.UnmarshalTypeError]; its position and wording are not
    modelled). *)
Inductive error : Type :=
| io_EOF
| io_ErrUnexpectedEOF
| ErrAccessDenied
| ErrInvalidPassword
| ErrTimeout
| errors_New (text : string)
| fmt_Errorf (format : string) (a : operand)
| json_error
with operand : Type :=
| arg_s (s : string)
| arg_q (b : string)
| arg_w (e : error).

(** Replaces the first two-byte verb of [format] by [v]. *)
Fixpoint subst_verb (format v : string) : string :=
  match format with
  | EmptyString => EmptyString
  | String c rest =>
      if Ascii.eqb c "%"%char then
        match rest with
        | String _ rest' => v +:+ rest'
        | EmptyString => format
        end
      else String c (subst_verb rest v)
  end.

(** The [Error()] method, where the model determines the message: not for
    an error of [encoding/json], nor through a [%q] operand (the quoting of
    [strconv.Quote] is not modelled). *)
Fixpoint Error (e : error) : option string :=
  match e with
  | io_EOF => Some "EOF"
  | io_ErrUnexpectedEOF => Some "unexpected EOF"
  | ErrAccessDenied => Some "access denied"
  | ErrInvalidPassword => Some "invalid password"
  | ErrTimeout => Some "timeout"
  | errors_New text => Some text
  | fmt_Errorf format a =>
      match a with
      | arg_s s => Some (subst_verb format s)
      | arg_q _ => None
      | arg_w e' =>
          match Error e' with
          | Some text => Some (subst_verb format text)
          | None => None
          end
      end
  | json_error => None
  end.

(** [e] is [target] or wraps it through a chain of [%w]. *)
Fixpoint Unwraps (e target : error) : Prop :=
  e = target \/
  match e with
  | fmt_Errorf _ (arg_w e') => Unwraps e' target
  | _ => False
  end.

End errs.

(** ** [strconv.ParseInt], base 10, 64 bits *)

Module strconv.

Inductive NumError : Type := ErrSyntax | ErrRange.

Definition maxUint64 : Z := 2 ^ 64 - 1.

Definition decimal (c : ascii) : option Z :=
  let n := Z.of_N (N_of_ascii c) in
  if (48 <=? n) && (n <=? 57) then Some (n - 48) else None.

(** The loop of [ParseUint] over the bytes of the number, with the value so
    far.  A byte that is no digit ends it with a syntax error and 0; a value
    that leaves 64 bits ends it, at the byte where it does so, with a range
    error and the largest value. *)
Fixpoint ParseUint_loop (s : string) (n : Z) : Z * option NumError :=
  match s with
  | EmptyString => (n, None)
  | String c s' =>
      match decimal c with
      | None => (0, Some ErrSyntax)
      | Some d =>
          let cutoff := maxUint64 / 10 + 1 in
          if n >=? cutoff then (maxUint64, Some ErrRange)
          else
            let n1 := n * 10 + d in
            if n1 >? maxUint64 then (maxUint64, Some ErrRange)
            else ParseUint_loop s' n1
      end
  end.

Definition ParseUint (s : string) : Z * option NumError :=
  match s with
  | EmptyString => (0, Some ErrSyntax)
  | _ => ParseUint_loop s 0
  end.

(** [strconv.ParseInt(s, 10, 64)]: the value and the error, if any.  With a
    range error the value is the nearest bound of [int64]. *)
Definition ParseInt (s : string) : Z * option NumError :=
  match s with
  | EmptyString => (0, Some ErrSyntax)
  | String c s' =>
      let '(neg, s1) :=
        if Ascii.eqb c "+"%char then (false, s')
        else if Ascii.eqb c "-"%char then (true, s')
        else (false, s) in
      match ParseUint s1 with
      | (_, Some ErrSyntax) => (0, Some ErrSyntax)
      | (un, _) =>
          let cutoff := 2 ^ 63 in
          if negb neg && (un >=? cutoff) then (cutoff - 1, Some ErrRange)
          else if neg && (un >? cutoff) then (- cutoff, Some ErrRange)
          else (if neg then - un else un, None)
      end
  end.

End strconv.

(** ** Package [internal]: frame transport, response model, handshake *)

Module internal.
Import bytes errs.

(** *** response.go *)

Definition ctCommandReply : string := "command/reply".
Definition ctAPIResponse : string := "api/response".
Definition ctAuth : string := "auth/request".
Definition ctEventPlain : string := "text/event-plain".
Definition ctEventJSON : string := "text/event-json".
Definition ctEventXML : string := "text/event-xml".
Definition ctDisconnect : string := "text/disconnect-notice".
Definition ctReject : string := "text/rude-rejection".

Record Response : Type := mkResponse {
  ContentType : string;
  Text : string;
  JobUUID : string;
  Body : string
}.

(** The zero value [Response{}]. *)
Definition Response_zero : Response := mkResponse "" "" "" "".

Definition responseError (text : string) : option error :=
  let errPrefix := "-ERR " in
  match CutPrefix text errPrefix with
  | (text', true) => Some (errors_New text')
  | (_, false) => None
  end.

Definition AsErr (resp : Response) : option error :=
  if String.eqb (ContentType resp) ctDisconnect then Some io_EOF
  else if String.eqb (ContentType resp) ctCommandReply then responseError (Text resp)
  else if String.eqb (ContentType resp) ctAPIResponse then responseError (Body resp)
  else None.

(** A [slog.Value] of the kinds the program logs, and an attribute. *)
Inductive slog_Value : Type :=
| slog_String (s : string)
| slog_Int (n : Z)
| slog_Int64 (n : Z).

Abbreviation slog_Attr := (string * slog_Value)%type.

(** [LogValue]: the attributes of the group it returns.  The error of
    [AsErr] is [io.EOF] or comes from [errors.New], so its message is always
    there; the empty string stands where [Error] has none. *)
Definition LogValue (resp : Response) : list slog_Attr :=
  let attr := [("type", slog_String (ContentType resp))] in
  let attr :=
    if negb (String.eqb (JobUUID resp) "")
    then (attr ++ [("job-uuid", slog_String (JobUUID resp))])%list else attr in
  match AsErr resp with
  | Some err => (attr ++ [("error", slog_String (default "" (Error err)))])%list
  | None =>
      let length := len (Body resp) in
      if length >? 0 then (attr ++ [("length", slog_Int length)])%list else attr
  end.

(** *** conn.go *)

(** [bufio.Reader] over the stream: the bytes still to come and the error
    the stream reports once they are used up. *)
Record Reader : Type := mkReader {
  pending : string;
  ending : error
}.

(** [bufio.Writer] over the stream: the bytes flushed so far and, when the
    stream refuses writes, the error of [Flush]. *)
Record Writer : Type := mkWriter {
  sent : string;
  broken : option error
}.

Record Conn : Type := mkConn {
  r : Reader;
  w : Writer;
  cmdTimeout : Z
}.

Definition with_pending (c : Conn) (s : string) : Conn :=
  mkConn (mkReader s (ending (r c))) (w c) (cmdTimeout c).

Definition with_sent (c : Conn) (s : string) : Conn :=
  mkConn (r c) (mkWriter s (broken (w c))) (cmdTimeout c).

(** [readLine]: one whole line without its end-of-line bytes.  The loop
    over [bufio.Reader.ReadLine] glues the buffer-sized pieces of a long
    line together, so the result is the line as [ReadLine] would give it
    with an unbounded buffer: at the end of the stream the error; otherwise
    the bytes up to the line feed, less the line feed and a carriage return
    before it; or, if no line feed is left, all remaining bytes as they
    are.  (For that unterminated last line the reader is taken to report
    the end of the stream together with its last bytes; a reader that
    reports it in a read of its own loses the line to the error when the
    line fills a whole number of buffers.) *)
Definition readLine (c : Conn) : Conn * (string + error) :=
  match pending (r c) with
  | EmptyString => (c, inr (ending (r c)))
  | _ =>
      match cut_newline (pending (r c)) with
      | (line, Some rest) => (with_pending c rest, inl (drop_last_CR line))
      | (line, None) => (with_pending c "", inl line)
      end
  end.

(** [trimLeft] removes leading spaces and tabs. *)
Fixpoint trimLeft (b : string) : string :=
  match b with
  | EmptyString => ""
  | String x b' =>
      if negb (Ascii.eqb x SP) && negb (Ascii.eqb x TAB) then b
      else trimLeft b'
  end.

Definition digit (c : ascii) : option Z :=
  let n := Z.of_N (N_of_ascii c) in
  if (48 <=? n) && (n <=? 57) then Some (n - 48) else None.

Fixpoint digits (s : string) (acc : Z) : option Z :=
  match s with
  | EmptyString => Some acc
  | String c s' =>
      match digit c with
      | Some d => digits s' (acc * 10 + d)
      | None => None
      end
  end.

(** [strconv.Atoi] on a 64-bit platform: an optional sign, at least one
    decimal digit, nothing else, value within [int]; [None] is its error. *)
Definition Atoi (s : string) : option Z :=
  let '(neg, ds) :=
    match s with
    | String c s' =>
        if Ascii.eqb c "-"%char then (true, s')
        else if Ascii.eqb c "+"%char then (false, s')
        else (false, s)
    | EmptyString => (false, s)
    end in
  match ds with
  | EmptyString => None
  | _ =>
      match digits ds 0 with
      | Some n =>
          let v := if neg then - n else n in
          if (- 2 ^ 63 <=? v) && (v <? 2 ^ 63) then Some v else None
      | None => None
      end
  end.

(** How the header loop of [Read] ends: by [break], or by [return] with an
    error. *)
Inductive headers : Type :=
| hdr_break (c : Conn) (resp : Response) (contentLength : Z)
| hdr_return (c : Conn) (resp : Response) (err : error).

(** The [switch key] of [Read]; the right injection is the return on a
    malformed content length. *)
Definition store_header (key value : string) (resp : Response) (contentLength : Z)
  : Response * Z + error :=
  if String.eqb key "Content-Type" then
    inl (mkResponse value (Text resp) (JobUUID resp) (Body resp), contentLength)
  else if String.eqb key "Reply-Text" then
    inl (mkResponse (ContentType resp) value (JobUUID resp) (Body resp), contentLength)
  else if String.eqb key "Job-UUID" then
    inl (mkResponse (ContentType resp) (Text resp) value (Body resp), contentLength)
  else if String.eqb key "Content-Length" then
    match Atoi value with
    | Some n => inl (resp, n)
    | None => inr (fmt_Errorf "malformed content-length: %q" (arg_q value))
    end
  else inl (resp, contentLength).

(** The [for] loop of [Read]. *)
Fixpoint Read_headers (fuel : nat) (c : Conn) (resp : Response) (contentLength : Z)
  : option headers :=
  match fuel with
  | O => None
  | S fuel' =>
      match readLine c with
      | (c', inr err) => Some (hdr_return c' resp err)
      | (c', inl line) =>
          if len line =? 0 then
            if String.eqb (ContentType resp) "" then
              Read_headers fuel' c' resp contentLength
            else Some (hdr_break c' resp contentLength)
          else
            let idx := IndexByte line ":"%char in
            if idx <=? 0 then
              Some (hdr_return c' resp
                      (fmt_Errorf "malformed header line: %q" (arg_q line)))
            else
              let key := take (Z.to_nat idx) line in
              let value := trimLeft (drop (Z.to_nat (idx + 1)) line) in
              match store_header key value resp contentLength with
              | inl (resp', contentLength') =>
                  Read_headers fuel' c' resp' contentLength'
              | inr err => Some (hdr_return c' resp err)
              end
      end
  end.

(** [io.ReadFull] for [n > 0] bytes: the bytes, or the error of a short
    read, which uses up what was left of the stream. *)
Definition ReadFull (c : Conn) (n : Z) : Conn * (string + error) :=
  let buf := pending (r c) in
  if n <=? len buf then
    (with_pending c (drop (Z.to_nat n) buf), inl (take (Z.to_nat n) buf))
  else
    (with_pending c "",
     inr match ending (r c), buf with
         | io_EOF, String _ _ => io_ErrUnexpectedEOF
         | e, _ => e
         end).

(** The runtime's bound on the size of one allocation, [maxAlloc]: the 48
    address bits of the heap on amd64, arm64 and the like. *)
Definition maxAlloc : Z := 2 ^ 48.

(** [make([]byte, n)]: the length of the new slice, whose bytes [ReadFull]
    overwrites before they are used; [None] is the panic of the runtime
    ("makeslice: len out of range") for a length that is negative or above
    [maxAlloc]. *)
Definition make (n : Z) : option Z :=
  if (0 <=? n) && (n <=? maxAlloc) then Some n else None.

(** The body part of [Read]; [None] is the panic of [make], which nothing
    recovers: [Read] does not return. *)
Definition Read_body (h : headers) : option (Conn * Response * option error) :=
  match h with
  | hdr_return c resp err => Some (c, resp, Some err)
  | hdr_break c resp contentLength =>
      if contentLength >? 0 then
        match make contentLength with
        | None => None
        | Some size =>
            match ReadFull c size with
            | (c', inr err) =>
                Some (c', resp,
                      Some (fmt_Errorf "failed to read response body: %w" (arg_w err)))
            | (c', inl body) =>
                Some (c', mkResponse (ContentType resp) (Text resp) (JobUUID resp) body,
                      None)
            end
        end
      else Some (c, resp, None)
  end.

(** Every turn of the header loop either returns or takes at least one byte
    off the stream, so one more than the number of pending bytes is enough
    fuel. *)
Definition Read_fuel (c : Conn) : nat := S (String.length (pending (r c))).

Definition Read (c : Conn) : option (Conn * Response * option error) :=
  Read_headers (Read_fuel c) c Response_zero 0 ≫= Read_body.

Definition Write (c : Conn) (cmd : string) : Conn * option error :=
  if String.eqb cmd "" then (c, None)
  else
    match broken (w c) with
    | Some err => (c, Some (fmt_Errorf "send: %w" (arg_w err)))
    | None =>
        (with_sent c (sent (w c) +:+ cmd +:+ String LF (String LF "")), None)
    end.

Definition Send (c : Conn) (cmd : string) : option (Conn * Response * option error) :=
  match Write c cmd with
  | (c1, Some err) => Some (c1, Response_zero, Some (fmt_Errorf "send: %w" (arg_w err)))
  | (c1, None) =>
      match Read c1 with
      | None => None
      | Some (c2, _, Some err) =>
          Some (c2, Response_zero, Some (fmt_Errorf "read: %w" (arg_w err)))
      | Some (c2, resp, None) => Some (c2, resp, None)
      end
  end.

(** [auth]: the handshake. *)
Definition auth (c : Conn) (password : string) : option (Conn * option error) :=
  match Read c with
  | None => None
  | Some (c1, _, Some err) =>
      Some (c1, Some (fmt_Errorf "read server request: %w" (arg_w err)))
  | Some (c1, resp, None) =>
      if String.eqb (ContentType resp) ctReject then Some (c1, Some ErrAccessDenied)
      else if String.eqb (ContentType resp) ctDisconnect then
        Some (c1, Some (fmt_Errorf "server disconnect: %w" (arg_w io_EOF)))
      else if String.eqb (ContentType resp) ctAuth then
        match Send c1 ("auth " +:+ password) with
        | None => None
        | Some (c2, _, Some err) =>
            Some (c2, Some (fmt_Errorf "read auth response: %w" (arg_w err)))
        | Some (c2, resp2, None) =>
            if negb (String.eqb (ContentType resp2) ctCommandReply) then
              Some (c2, Some (fmt_Errorf "unexpected auth response content type: %s"
                                (arg_s (ContentType resp2))))
            else if negb (HasPrefix (Text resp2) "+OK") then
              Some (c2, Some ErrInvalidPassword)
            else Some (c2, None)
        end
      else
        Some (c1, Some (fmt_Errorf "unexpected auth request content type: %s"
                          (arg_s (ContentType resp))))
  end.

End internal.

(** ** [encoding/json], for a destination of type [map[string]string] *)

Module json.
Import bytes errs.

Definition code (c : ascii) : N := N_of_ascii c.
Definition chr (n : N) : ascii := ascii_of_N n.
Definition QUOTE : ascii := "034"%char.
Definition BACKSLASH : ascii := "092"%char.

Definition between (lo hi : N) (c : ascii) : bool :=
  ((lo <=? code c) && (code c <=? hi))%N.

(** The scanner's [isSpace]. *)
Definition isSpace (c : ascii) : bool :=
  Ascii.eqb c SP || Ascii.eqb c TAB || Ascii.eqb c CR || Ascii.eqb c LF.

Definition hex (c : ascii) : option N :=
  if between 48 57 c then Some (code c - 48)%N
  else if between 97 102 c then Some (code c - 87)%N
  else if between 65 70 c then Some (code c - 55)%N
  else None.

(** [getu4] on its four digits. *)
Definition hex4 (a b c d : ascii) : option N :=
  match hex a, hex b, hex c, hex d with
  | Some x, Some y, Some z, Some t => Some (((x * 16 + y) * 16 + z) * 16 + t)%N
  | _, _, _, _ => None
  end.

(** The encoding of [utf8.RuneError], U+FFFD. *)
Definition RuneError : string :=
  String (chr 239) (String (chr 191) (String (chr 189) "")).

(** [utf8.EncodeRune] *)
Definition EncodeRune (x : N) : string :=
  (if x <=? 127 then String (chr x) ""
   else if x <=? 2047 then
     String (chr (192 + x / 64)) (String (chr (128 + x mod 64)) "")
   else if ((55296 <=? x) && (x <=? 57343)) || (1114111 <? x) then RuneError
   else if x <=? 65535 then
     String (chr (224 + x / 4096))
       (String (chr (128 + (x / 64) mod 64)) (String (chr (128 + x mod 64)) ""))
   else
     String (chr (240 + x / 262144))
       (String (chr (128 + (x / 4096) mod 64))
          (String (chr (128 + (x / 64) mod 64)) (String (chr (128 + x mod 64)) ""))))%N.

(** [utf16.DecodeRune] on a surrogate [hi] and the unit after it, when they
    form a pair. *)
Definition surrogate_pair (hi lo : N) : option N :=
  (if (55296 <=? hi) && (hi <? 56320) && (56320 <=? lo) && (lo <? 57344)
   then Some ((hi - 55296) * 1024 + (lo - 56320) + 65536)
   else None)%N.

(** [utf8.DecodeRune], as far as unquoting needs it: the number of bytes
    that follow the first byte of the well-formed encoding at the head of
    [s], or [None] when the head of [s] is not well formed. *)
Definition rune_tail (s : string) : option nat :=
  match s with
  | String a rest =>
      let second (lo hi : N) (more : nat) :=
        match rest with
        | String b rest' =>
            if between lo hi b then
              match more, rest' with
              | O, _ => Some 1%nat
              | S O, String c _ => if between 128 191 c then Some 2%nat else None
              | S (S _), String c (String d _) =>
                  if between 128 191 c && between 128 191 d then Some 3%nat else None
              | _, _ => None
              end
            else None
        | EmptyString => None
        end in
      if between 194 223 a then second 128%N 191%N 0%nat
      else if between 224 224 a then second 160%N 191%N 1%nat
      else if between 225 236 a || between 238 239 a then second 128%N 191%N 1%nat
      else if between 237 237 a then second 128%N 159%N 1%nat
      else if between 240 240 a then second 144%N 191%N 2%nat
      else if between 241 243 a then second 128%N 191%N 2%nat
      else if between 244 244 a then second 128%N 143%N 2%nat
      else None
  | EmptyString => None
  end.

(** The bytes a one-letter escape stands for. *)
Definition escape (e : ascii) : option ascii :=
  if Ascii.eqb e QUOTE || Ascii.eqb e BACKSLASH || Ascii.eqb e "/"%char then Some e
  else if Ascii.eqb e "b"%char then Some (chr 8)
  else if Ascii.eqb e "f"%char then Some (chr 12)
  else if Ascii.eqb e "n"%char then Some LF
  else if Ascii.eqb e "r"%char then Some CR
  else if Ascii.eqb e "t"%char then Some TAB
  else None.

(** [unquoteBytes] on the bytes between the quotes of a string literal that
    the scanner accepts ([None] where the scanner rejects it): escapes are
    replaced, and bytes that are not well-formed UTF-8 become U+FFFD.
    [copy] counts the bytes still to be copied of the rune being read. *)
Fixpoint unquote (copy : nat) (s : string) : option string :=
  match s with
  | EmptyString => Some ""
  | String c s' =>
      match copy with
      | S copy' => String c <$> unquote copy' s'
      | O =>
          if Ascii.eqb c BACKSLASH then
            match s' with
            | String e s'' =>
                if Ascii.eqb e "u"%char then
                  match s'' with
                  | String h1 (String h2 (String h3 (String h4 t))) =>
                      match hex4 h1 h2 h3 h4 with
                      | None => None
                      | Some rr =>
                          if ((55296 <=? rr) && (rr <? 57344))%N then
                            match t with
                            | String b1 (String b2 (String g1 (String g2
                                (String g3 (String g4 t2))))) =>
                                match
                                  (if Ascii.eqb b1 BACKSLASH && Ascii.eqb b2 "u"%char
                                   then hex4 g1 g2 g3 g4 else None)
                                    ≫= surrogate_pair rr
                                with
                                | Some dec => String.append (EncodeRune dec) <$> unquote 0 t2
                                | None => String.append RuneError <$> unquote 0 t
                                end
                            | _ => String.append RuneError <$> unquote 0 t
                            end
                          else String.append (EncodeRune rr) <$> unquote 0 t
                      end
                  | _ => None
                  end
                else
                  match escape e with
                  | Some x => String x <$> unquote 0 s''
                  | None => None
                  end
            | EmptyString => None
            end
          else if Ascii.eqb c QUOTE || (code c <? 32)%N then None
          else if (code c <? 128)%N then String c <$> unquote 0 s'
          else
            match rune_tail s with
            | Some n => String c <$> unquote n s'
            | None => String.append RuneError <$> unquote 0 s'
            end
      end
  end.

(** Where the decoder is in the text. *)
Inductive phase : Type :=
| p_begin
| p_null (expect : string) (key : option string)
| p_first
| p_key_wanted
| p_key (raw : string) (esc : bool)
| p_colon (key : string)
| p_value (key : string)
| p_string (key raw : string) (esc : bool)
| p_next
| p_end.

Abbreviation dest := (option (gmap string string)).

Definition set_member (key value : string) (ev : dest) : dest :=
  Some (<[key := value]> (default ∅ ev)).

(** One byte inside a string literal: [inl] while the literal goes on,
    [inr] with its contents at the closing quote. *)
Definition in_string (raw : string) (esc : bool) (c : ascii)
  : option (string * bool + string) :=
  if esc then Some (inl (raw +:+ String c "", false))
  else if Ascii.eqb c QUOTE then inr <$> unquote 0 raw
  else if Ascii.eqb c BACKSLASH then Some (inl (raw +:+ String c "", true))
  else if (code c <? 32)%N then None
  else Some (inl (raw +:+ String c "", false)).

(** One byte of the text; [None] is an error, of syntax or of type (a
    member value, or a text, that is neither a string nor [null]). *)
Definition step (p : phase) (ev : dest) (c : ascii) : option (phase * dest) :=
  match p with
  | p_begin =>
      if isSpace c then Some (p_begin, ev)
      else if Ascii.eqb c "{"%char then Some (p_first, Some (default ∅ ev))
      else if Ascii.eqb c "n"%char then Some (p_null "ull" None, ev)
      else None
  | p_null expect key =>
      match expect with
      | String x expect' =>
          if Ascii.eqb c x then
            match expect', key with
            | String _ _, _ => Some (p_null expect' key, ev)
            | EmptyString, None => Some (p_end, None)
            | EmptyString, Some k => Some (p_next, set_member k "" ev)
            end
          else None
      | EmptyString => None
      end
  | p_first =>
      if isSpace c then Some (p_first, ev)
      else if Ascii.eqb c QUOTE then Some (p_key "" false, ev)
      else if Ascii.eqb c "}"%char then Some (p_end, ev)
      else None
  | p_key_wanted =>
      if isSpace c then Some (p_key_wanted, ev)
      else if Ascii.eqb c QUOTE then Some (p_key "" false, ev)
      else None
  | p_key raw esc =>
      match in_string raw esc c with
      | Some (inl (raw', esc')) => Some (p_key raw' esc', ev)
      | Some (inr key) => Some (p_colon key, ev)
      | None => None
      end
  | p_colon key =>
      if isSpace c then Some (p_colon key, ev)
      else if Ascii.eqb c ":"%char then Some (p_value key, ev)
      else None
  | p_value key =>
      if isSpace c then Some (p_value key, ev)
      else if Ascii.eqb c QUOTE then Some (p_string key "" false, ev)
      else if Ascii.eqb c "n"%char then Some (p_null "ull" (Some key), ev)
      else None
  | p_string key raw esc =>
      match in_string raw esc c with
      | Some (inl (raw', esc')) => Some (p_string key raw' esc', ev)
      | Some (inr value) => Some (p_next, set_member key value ev)
      | None => None
      end
  | p_next =>
      if isSpace c then Some (p_next, ev)
      else if Ascii.eqb c ","%char then Some (p_key_wanted, ev)
      else if Ascii.eqb c "}"%char then Some (p_end, ev)
      else None
  | p_end => if isSpace c then Some (p_end, ev) else None
  end.

Fixpoint run (p : phase) (ev : dest) (data : string) : option dest :=
  match data with
  | EmptyString => match p with p_end => Some ev | _ => None end
  | String c data' =>
      match step p ev c with
      | Some (p', ev') => run p' ev' data'
      | None => None
      end
  end.

(** [json.Unmarshal(data, &event)]: the value left in [event] when it
    returns [nil], or else its error.  The text must be an object whose
    member values are strings or [null] (a [null] member gives the empty
    string; a later member replaces an earlier one of the same name), or
    the text [null], which leaves the [nil] map; white space may surround
    every token.  What an unsuccessful call leaves in [event] is not
    modelled; [parseEvent] drops it. *)
Definition Unmarshal (data : string) (event : dest) : dest + error :=
  match run p_begin event data with
  | Some ev => inl ev
  | None => inr json_error
  end.

End json.

(** ** Package [eslmon]: events, subscribers, subscription command, run loop *)

Module eslmon.
Import bytes errs.

(** *** event.go *)

(** [type Event map[string]string]; [None] is the [nil] map. *)
Abbreviation Event := (option (gmap string string)).

Definition Get (e : Event) (key : string) : string :=
  match e with
  | Some m => default "" (m !! key)
  | None => ""
  end.

Definition contentLengthKey : string := "Content-Length".
Definition eventNameKey : string := "Event-Name".
Definition eventSubclassKey : string := "Event-Subclass".
Definition eventSequenceKey : string := "Event-Sequence".
Definition eventTimestampKey : string := "Event-Date-Timestamp".
Definition eventJobUUIDKey : string := "Job-UUID".
Definition variableKeyPrefix : string := "variable_".
Definition bodyKey : string := "_body".

Definition Name (e : Event) : string :=
  let name := Get e eventSubclassKey in
  if negb (String.eqb name "") then name else Get e eventNameKey.

Definition ContentType (e : Event) : string := Get e contentLengthKey.

Definition Body (e : Event) : string := Get e bodyKey.

Definition ContentLength (e : Event) : Z := len (Body e).

(** [Sequence]: the error of [ParseInt] is dropped, its value kept. *)
Definition Sequence (e : Event) : Z := fst (strconv.ParseInt (Get e eventSequenceKey)).

(** A [time.Time] as the program builds it: the zero value [time.Time{}] or
    [time.UnixMicro(usec)]. *)
Inductive Time : Type :=
| Time_zero
| time_UnixMicro (usec : Z).

Definition Timestamp (e : Event) : Time :=
  let ts := Get e eventTimestampKey in
  match strconv.ParseInt ts with
  | (i, None) => time_UnixMicro i
  | (_, Some _) => Time_zero
  end.

Definition Variable_ (e : Event) (name : string) : string :=
  Get e (variableKeyPrefix +:+ name).

Definition IsCustom (e : Event) : bool := String.eqb (Get e eventNameKey) "CUSTOM".

(** The predefined event names. *)
Definition eventNames : gset string :=
  list_to_set [
    "CLONE"; "CHANNEL_CREATE"; "CHANNEL_DESTROY"; "CHANNEL_STATE";
    "CHANNEL_CALLSTATE"; "CHANNEL_ANSWER"; "CHANNEL_HANGUP";
    "CHANNEL_HANGUP_COMPLETE"; "CHANNEL_EXECUTE";
    "CHANNEL_EXECUTE_COMPLETE"; "CHANNEL_HOLD"; "CHANNEL_UNHOLD";
    "CHANNEL_BRIDGE"; "CHANNEL_UNBRIDGE"; "CHANNEL_PROGRESS";
    "CHANNEL_PROGRESS_MEDIA"; "CHANNEL_OUTGOING"; "CHANNEL_PARK";
    "CHANNEL_UNPARK"; "CHANNEL_APPLICATION"; "CHANNEL_ORIGINATE";
    "CHANNEL_UUID"; "API"; "LOG"; "INBOUND_CHAN"; "OUTBOUND_CHAN";
    "STARTUP"; "SHUTDOWN"; "PUBLISH"; "UNPUBLISH"; "TALK"; "NOTALK";
    "SESSION_CRASH"; "MODULE_LOAD"; "MODULE_UNLOAD"; "DTMF"; "MESSAGE";
    "PRESENCE_IN"; "NOTIFY_IN"; "PRESENCE_OUT"; "PRESENCE_PROBE";
    "MESSAGE_WAITING"; "MESSAGE_QUERY"; "ROSTER"; "CODEC";
    "BACKGROUND_JOB"; "DETECTED_SPEECH"; "DETECTED_TONE";
    "PRIVATE_COMMAND"; "HEARTBEAT"; "TRAP"; "ADD_SCHEDULE"; "DEL_SCHEDULE";
    "EXE_SCHEDULE"; "RE_SCHEDULE"; "RELOADXML"; "NOTIFY"; "PHONE_FEATURE";
    "PHONE_FEATURE_SUBSCRIBE"; "SEND_MESSAGE"; "RECV_MESSAGE";
    "REQUEST_PARAMS"; "CHANNEL_DATA"; "GENERAL"; "COMMAND";
    "SESSION_HEARTBEAT"; "CLIENT_DISCONNECTED"; "SERVER_DISCONNECTED";
    "SEND_INFO"; "RECV_INFO"; "RECV_RTCP_MESSAGE"; "SEND_RTCP_MESSAGE";
    "CALL_SECURE"; "NAT"; "RECORD_START"; "RECORD_STOP"; "PLAYBACK_START";
    "PLAYBACK_STOP"; "CALL_UPDATE"; "FAILURE"; "SOCKET_DATA";
    "MEDIA_BUG_START"; "MEDIA_BUG_STOP"; "CONFERENCE_DATA_QUERY";
    "CONFERENCE_DATA"; "CALL_SETUP_REQ"; "CALL_SETUP_RESULT";
    "CALL_DETAIL"; "DEVICE_STATE"; "TEXT"; "SHUTDOWN_REQUESTED"
  ].

Section Decode.
(** [json.Unmarshal(data, &event)] of the standard library, for an
    [event] of type [Event]: the value left in [event] when it returns
    [nil], or else its error; [json.Unmarshal] above is the decoder the
    program runs with. *)
Variable json_Unmarshal : string -> Event -> Event + error.

Definition parseEvent (body : string) : Event * option error :=
  let event : Event := None in
  match json_Unmarshal body event with
  | inr err => (None, Some (fmt_Errorf "parse event: %w" (arg_w err)))
  | inl event' => (event', None)
  end.
End Decode.

(** *** subscriber.go *)

(** A [chan<- Event] is the name of a channel.  The channels themselves
    live in a store that records, per channel, the events sent on it, oldest
    first; two subscribers may hold the same channel.  A send is taken to
    complete (the receiver drains the channel). *)
Abbreviation chan := nat (only parsing).
Abbreviation channels := (gmap nat (list Event)).

Definition chan_send (ch : chan) (e : Event) (chans : channels) : channels :=
  <[ch := (default [] (chans !! ch) ++ [e])%list]> chans.

(** [Names] is a [map[string]struct{}]; [None] is the [nil] map. *)
Record subscriber : Type := mkSubscriber {
  Names : option (gset string);
  Send : chan
}.

(** [len(s.Names)] *)
Definition len_Names (s : subscriber) : Z :=
  match Names s with
  | Some names => Z.of_nat (size names)
  | None => 0
  end.

(** [_, ok := s.Names[name]] *)
Definition has_Name (s : subscriber) (name : string) : bool :=
  match Names s with
  | Some names => bool_decide (name ∈ names)
  | None => false
  end.

(** The [for] loop of [newSubscriber]; [None] is its early return, whose
    [Names] is [nil]. *)
Fixpoint newSubscriber_names (events : list string) (eventNames : gset string)
  : option (gset string) :=
  match events with
  | [] => Some eventNames
  | name :: events' =>
      if String.eqb name "" || String.eqb name "*" || EqualFold name "all" then None
      else
        let '(name', _) := CutPrefix name "CUSTOM " in
        newSubscriber_names events' ({[name']} ∪ eventNames)
  end.

(** [newSubscriber]; the argument [send = None] is the [nil] channel, and
    the result [None] is the panic. *)
Definition newSubscriber (send : option chan) (events : list string)
  : option subscriber :=
  match send with
  | None => None
  | Some ch =>
      if Z.of_nat (length events) =? 0 then Some (mkSubscriber None ch)
      else Some (mkSubscriber (newSubscriber_names events ∅) ch)
  end.

Definition Handle (s : subscriber) (e : Event) (chans : channels) : bool * channels :=
  if has_Name s (Name e) || (len_Names s =? 0) then (true, chan_send (Send s) e chans)
  else (false, chans).

(** *** monitor.go *)

Record Monitor : Type := mkMonitor {
  addr : string;
  password : string;
  dialTimeout : Z;
  subscribers : list subscriber;
  cmdTimeout : Z
}.

Definition Subscribe (m : Monitor) (send : option chan) (events : list string)
  : option Monitor :=
  match newSubscriber send events with
  | None => None
  | Some s =>
      Some (mkMonitor (addr m) (password m) (dialTimeout m)
              (subscribers m ++ [s])%list (cmdTimeout m))
  end.

Definition cmdSubscribe : string := "event plain".

(** The first loop of [subscribe]: the union of the subscribers' names, or
    [None] at the first subscriber without names (the early return). *)
Fixpoint subscribe_events (subs : list subscriber) (events : gset string)
  : option (gset string) :=
  match subs with
  | [] => Some events
  | s :: subs' =>
      if len_Names s =? 0 then None
      else subscribe_events subs' (events ∪ default ∅ (Names s))
  end.

(** One turn of the second loop, on the two builders [cmd] and [custom]. *)
Definition subscribe_name (b : string * string) (name : string) : string * string :=
  let '(cmd, custom) := b in
  if bool_decide (name ∈ eventNames) then (cmd +:+ " " +:+ name, custom)
  else (cmd, custom +:+ " " +:+ name).

Section Range.
(** The order in which [range] visits the keys of a map; Go leaves it
    unspecified. *)
Variable range : gset string -> list string.

Definition subscribe (m : Monitor) : string :=
  match subscribe_events (subscribers m) ∅ with
  | None => cmdSubscribe +:+ " ALL"
  | Some events =>
      let '(cmd, custom) := foldl subscribe_name (cmdSubscribe, "") (range events) in
      if len custom >? 0 then
        let cmd := if len cmd >? 0 then cmd +:+ " " else cmd in
        cmd +:+ "CUSTOM" +:+ custom
      else cmd
  end.
End Range.

Section Stream.
Variable json_Unmarshal : string -> Event -> Event + error.

(** What [context.Cause(ctx)] yields when the loop of [Run] asks for it,
    which it does once, after a failed read: the recorded cause if the
    cancellation has fired by then, [None] (Go's [nil]) if not. *)
Variable ctx_Cause : option error.

(** [for _, subscriber := range m.subscribers { subscriber.Handle(event) }] *)
Definition dispatch (m : Monitor) (event : Event) (chans : channels) : channels :=
  foldl (fun st s => snd (Handle s event st)) chans (subscribers m).

(** The streaming [for] loop that ends [Run]: the error [Run] returns,
    with the connection and the channels as the loop leaves them. *)
Fixpoint Run_stream (fuel : nat) (m : Monitor) (eslConn : internal.Conn)
    (chans : channels) : option (error * internal.Conn * channels) :=
  match fuel with
  | O => None
  | S fuel' =>
      match internal.Read eslConn with
      | None => None
      | Some (c', _, Some err) =>
          match ctx_Cause with
          | Some cause => Some (fmt_Errorf "done: %w" (arg_w cause), c', chans)
          | None => Some (fmt_Errorf "read: %w" (arg_w err), c', chans)
          end
      | Some (c', resp, None) =>
          if String.eqb (internal.ContentType resp) "text/event-plain" then
            match parseEvent json_Unmarshal (internal.Body resp) with
            | (_, Some err) =>
                Some (fmt_Errorf "event parse: %w" (arg_w err), c', chans)
            | (event, None) => Run_stream fuel' m c' (dispatch m event chans)
            end
          else if String.eqb (internal.ContentType resp) "text/disconnect-notice" then
            Some (fmt_Errorf "server closed: %w" (arg_w io_EOF), c', chans)
          else Run_stream fuel' m c' chans
      end
  end.

(** A successful [Read] takes at least one byte off the stream, so this is
    enough fuel. *)
Definition Run_fuel (eslConn : internal.Conn) : nat :=
  S (String.length (internal.pending (internal.r eslConn))).
End Stream.

End eslmon.

(** ** Vocabulary of the statements *)

Module vocabulary.
Import bytes errs internal eslmon.

(** A line end: a line feed, alone or after a carriage return. *)
Definition line_end (eol : string) : Prop := eol = String LF "" \/ eol = CRLF.

(** A connection whose peer delivers [data] and then ends the stream, and
    to which nothing has been written yet. *)
Definition peer (data : string) : Conn :=
  mkConn (mkReader data io_EOF) (mkWriter "" None) 0.

(** [s] starts with [prefix]. *)
Definition starts_with (prefix s : string) : Prop := exists rest, s = prefix +:+ rest.

(** The byte [c] occurs in [s]. *)
Definition contains (c : ascii) (s : string) : Prop :=
  exists a b, s = a +:+ String c b.

(** [s] consists of spaces and tabs. *)
Fixpoint blanks (s : string) : Prop :=
  match s with
  | EmptyString => True
  | String c s' => (c = SP \/ c = TAB) /\ blanks s'
  end.

(** [s] starts with a space or a tab. *)
Definition starts_blank (s : string) : Prop :=
  exists c s', s = String c s' /\ (c = SP \/ c = TAB).

(** A name that makes a subscriber take every event. *)
Definition wildcard_name (name : string) : Prop :=
  name = "" \/ name = "*" \/ EqualFold name "all" = true.

(** A name less its leading ["CUSTOM "]. *)
Definition strip_custom (name : string) : string := fst (CutPrefix name "CUSTOM ").

(** The names a subscriber asks for. *)
Definition names_of (s : subscriber) : gset string := default ∅ (Names s).

(** The names of [l], each after a space. *)
Definition join_names (l : list string) : string :=
  foldr (fun name acc => " " +:+ name +:+ acc) "" l.

(** An event with the given name and no subclass. *)
Definition named (name : string) : Event := Some {[eventNameKey := name]}.

(** A byte that stands for itself inside a JSON string literal. *)
Definition plain_byte (c : ascii) : Prop :=
  (32 <= json.code c)%N /\ (json.code c < 128)%N /\ c <> json.QUOTE /\ c <> json.BACKSLASH.

Fixpoint plain (s : string) : Prop :=
  match s with
  | EmptyString => True
  | String c s' => plain_byte c /\ plain s'
  end.

(** The JSON text of an object whose names and values are plain strings. *)
Definition quoted (s : string) : string := String json.QUOTE (s +:+ String json.QUOTE "").

Definition member (kv : string * string) : string :=
  quoted kv.1 +:+ String ":" (quoted kv.2).

Fixpoint members (kvs : list (string * string)) : string :=
  match kvs with
  | [] => ""
  | [kv] => member kv
  | kv :: kvs' => member kv +:+ String "," (members kvs')
  end.

Definition object (kvs : list (string * string)) : string :=
  String "{" (members kvs +:+ String "}" "").

(** The mapping with one entry per member, a later member replacing an
    earlier one of the same name. *)
Definition entries (m : gmap string string) (kvs : list (string * string))
  : gmap string string :=
  foldl (fun acc kv => <[kv.1 := kv.2]> acc) m kvs.

(** A header line as it goes over the wire, and a block of them. *)
Definition header_line (h : string * string) : string :=
  h.1 +:+ ": " +:+ h.2 +:+ CRLF.

Definition header_lines (hs : list (string * string)) : string :=
  foldr (fun h acc => header_line h +:+ acc) "" hs.

(** A name and a value that a header line carries unchanged. *)
Definition wire_name (name : string) : Prop :=
  name <> "" /\ ~ contains ":" name /\ ~ contains LF name.

Definition wire_value (value : string) : Prop :=
  ~ contains LF value /\ ~ starts_blank value.

Definition wire_header (h : string * string) : Prop := wire_name h.1 /\ wire_value h.2.

(** The headers of a block stored one after the other. *)
Fixpoint store_headers (hs : list (string * string)) (resp : Response) (n : Z)
  : Response * Z + error :=
  match hs with
  | [] => inl (resp, n)
  | h :: hs' =>
      match store_header h.1 h.2 resp n with
      | inl (resp', n') => store_headers hs' resp' n'
      | inr err => inr err
      end
  end.

(** A response on the wire, its content length written as [n]. *)
Definition frame (resp : Response) (n : string) : string :=
  header_lines [("Content-Type", internal.ContentType resp); ("Reply-Text", Text resp);
                ("Job-UUID", JobUUID resp); ("Content-Length", n)]
  +:+ CRLF +:+ internal.Body resp.

(** The subscriber [s] takes the event [e]. *)
Definition takes (s : subscriber) (e : Event) : bool := fst (Handle s e ∅).

(** How many subscribers of [subs] hold the channel [ch] and take [e]. *)
Definition deliveries (subs : list subscriber) (e : Event) (ch : nat) : nat :=
  length (filter (fun s => Send s = ch /\ takes s e = true) subs).



(** An event on the wire, as the switch sends it, its length written as [n];
    and a stream of such events, each with the event its body decodes to. *)
Definition event_frame (n body : string) : string :=
  header_lines [("Content-Length", n); ("Content-Type", "text/event-plain")]
  +:+ CRLF +:+ body.

Definition event_stream (items : list (string * string * Event)) : string :=
  foldr (fun it acc => event_frame it.1.1 it.1.2 +:+ acc) "" items.

(** A disconnect notice on the wire, with its text. *)
Definition disconnect_frame (n text : string) : string :=
  header_lines [("Content-Type", "text/disconnect-notice"); ("Content-Length", n)]
  +:+ CRLF +:+ text.

(** The connection a run of the header loop ends with. *)
Definition headers_conn (h : headers) : Conn :=
  match h with
  | hdr_break c _ _ => c
  | hdr_return c _ _ => c
  end.

(** The connection [c1] is [c] after some bytes were taken off its stream,
    and nothing else. *)
Definition tail_of (c c1 : Conn) : Prop :=
  c1 = with_pending c (pending (r c1)) /\
  exists taken, pending (r c) = taken +:+ pending (r c1).

End vocabulary.

(** * Properties *)

Import bytes errs internal eslmon vocabulary.

(** ** Byte strings *)

Lemma append_nil_l (s : string) : "" +:+ s = s.
Proof. reflexivity. Qed.

Lemma append_cons (c : ascii) (s t : string) : String c s +:+ t = String c (s +:+ t).
Proof. reflexivity. Qed.

Lemma append_nil_r (s : string) : s +:+ "" = s.
Proof. induction s as [|c s IH]; [done | by rewrite append_cons, IH]. Qed.

Lemma append_assoc (s t u : string) : (s +:+ t) +:+ u = s +:+ (t +:+ u).
Proof. induction s as [|c s IH]; [done | by rewrite !append_cons, IH]. Qed.

Lemma length_append (s t : string) :
  String.length (s +:+ t) = (String.length s + String.length t)%nat.
Proof. induction s as [|c s IH]; [done | by rewrite append_cons; simpl; rewrite IH]. Qed.

Lemma CutPrefix_app (prefix rest : string) :
  CutPrefix (prefix +:+ rest) prefix = (rest, true).
Proof.
  induction prefix as [|p prefix IH].
  - rewrite append_nil_l. by destruct rest.
  - rewrite append_cons. simpl. by rewrite Ascii.eqb_refl, IH.
Qed.

Lemma CutPrefix_true (s prefix rest : string) :
  CutPrefix s prefix = (rest, true) -> s = prefix +:+ rest.
Proof.
  revert s rest. induction prefix as [|p prefix IH]; intros s rest.
  - destruct s; simpl; intros [= <-]; done.
  - destruct s as [|c s]; simpl; [discriminate|].
    destruct (Ascii.eqb_spec c p) as [->|]; [|discriminate].
    destruct (CutPrefix s prefix) as [rest' [|]] eqn:E; [|discriminate].
    intros [= <-]. by rewrite (IH _ _ E).
Qed.

Lemma CutPrefix_false (s prefix x : string) :
  CutPrefix s prefix = (x, false) -> x = s /\ forall rest, s <> prefix +:+ rest.
Proof.
  intros H. split.
  - destruct prefix as [|p prefix], s as [|c s]; simpl in H; try by inversion H.
    destruct (Ascii.eqb c p); [|by inversion H].
    destruct (CutPrefix s prefix) as [rest' [|]]; by inversion H.
  - intros rest ->. by rewrite CutPrefix_app in H.
Qed.

Lemma HasPrefix_true (s prefix : string) :
  HasPrefix s prefix = true <-> exists rest, s = prefix +:+ rest.
Proof.
  unfold HasPrefix. split.
  - destruct (CutPrefix s prefix) as [rest [|]] eqn:E; [|discriminate].
    intros _. exists rest. by apply CutPrefix_true.
  - intros [rest ->]. by rewrite CutPrefix_app.
Qed.

(** ** Response classification *)

(** C7.  [AsErr] yields the end-of-stream error for a disconnect notice; for
    a command reply whose text, or an API response whose body, starts with
    ["-ERR "] it yields an error whose message is the remainder (so
    ["-ERR invalid"] gives the message ["invalid"]); in every other case it
    yields no error. *)
Theorem AsErr_classifies (resp : Response) :
  (internal.ContentType resp = ctDisconnect -> AsErr resp = Some io_EOF) /\
  (forall rest,
      internal.ContentType resp = ctCommandReply ->
      Text resp = "-ERR " +:+ rest ->
      AsErr resp = Some (errors_New rest) /\ Error (errors_New rest) = Some rest) /\
  (forall rest,
      internal.ContentType resp = ctAPIResponse ->
      internal.Body resp = "-ERR " +:+ rest ->
      AsErr resp = Some (errors_New rest) /\ Error (errors_New rest) = Some rest) /\
  (internal.ContentType resp <> ctDisconnect ->
   ~ (internal.ContentType resp = ctCommandReply /\
      exists rest, Text resp = "-ERR " +:+ rest) ->
   ~ (internal.ContentType resp = ctAPIResponse /\
      exists rest, internal.Body resp = "-ERR " +:+ rest) ->
   AsErr resp = None).
Proof.
  unfold AsErr, responseError. repeat split.
  - by intros ->.
  - rewrite H, H0. simpl String.eqb. by rewrite CutPrefix_app.
  - rewrite H, H0. simpl String.eqb. by rewrite CutPrefix_app.
  - intros Hd Hc Ha.
    destruct (String.eqb_spec (internal.ContentType resp) ctDisconnect); [done|].
    destruct (String.eqb_spec (internal.ContentType resp) ctCommandReply) as [Ec|].
    { destruct (CutPrefix (Text resp) "-ERR ") as [t [|]] eqn:E; [|done].
      exfalso. apply Hc. split; [done|]. exists t. by apply CutPrefix_true. }
    destruct (String.eqb_spec (internal.ContentType resp) ctAPIResponse) as [Ea|]; [|done].
    destruct (CutPrefix (internal.Body resp) "-ERR ") as [t [|]] eqn:E; [|done].
    exfalso. apply Ha. split; [done|]. exists t. by apply CutPrefix_true.
Qed.

Lemma AsErr_classifies_witness :
  AsErr (mkResponse "command/reply" "-ERR invalid" "" "") = Some (errors_New "invalid") /\
  Error (errors_New "invalid") = Some "invalid".
Proof.
  apply (proj1 (proj2 (AsErr_classifies (mkResponse "command/reply" "-ERR invalid" "" ""))));
    reflexivity.
Defined.

(** ** Reading lines *)

Lemma cut_newline_Some (s line rest : string) :
  cut_newline s = (line, Some rest) ->
  s = line +:+ String LF rest /\ (String.length rest < String.length s)%nat.
Proof.
  revert line rest. induction s as [|c s IH]; intros line rest; simpl; [discriminate|].
  destruct (Ascii.eqb_spec c LF) as [->|].
  - intros [= <- <-]. split; [done | lia].
  - destruct (cut_newline s) as [l o]. intros [= <- ->].
    destruct (IH _ _ eq_refl) as [-> Hlen]. split; [done | lia].
Qed.

Lemma cut_newline_None (s line : string) :
  cut_newline s = (line, None) -> line = s.
Proof.
  revert line. induction s as [|c s IH]; intros line; simpl; [by intros [= <-]|].
  destruct (Ascii.eqb c LF); [discriminate|].
  destruct (cut_newline s) as [l o]. intros [= <- ->]. by rewrite (IH _ eq_refl).
Qed.

Lemma readLine_inl (c c' : Conn) (line : string) :
  readLine c = (c', inl line) ->
  c' = with_pending c (pending (r c')) /\
  (String.length (pending (r c')) < String.length (pending (r c)))%nat.
Proof.
  unfold readLine. destruct (pending (r c)) as [|x s] eqn:E; [discriminate|].
  destruct (cut_newline (String x s)) as [l [rest|]] eqn:Ec; intros [= <- _].
  - split; [done|]. by destruct (cut_newline_Some _ _ _ Ec).
  - split; [done|]. simpl. lia.
Qed.

Lemma readLine_inr (c c' : Conn) (err : error) :
  readLine c = (c', inr err) -> c' = c /\ pending (r c) = "" /\ err = ending (r c).
Proof.
  unfold readLine. destruct (pending (r c)) as [|x s] eqn:E.
  - by intros [= <- <-].
  - destruct (cut_newline (String x s)) as [l [rest|]]; discriminate.
Qed.

Lemma readLine_blank (c : Conn) (eol rest : string) :
  line_end eol -> pending (r c) = eol +:+ rest ->
  readLine c = (with_pending c rest, inl "").
Proof.
  unfold readLine. intros [-> | ->] ->; reflexivity.
Qed.

(** ** The header loop terminates *)

Lemma Read_headers_mono (fuel fuel' : nat) (c : Conn) (resp : Response) (n : Z) (h : headers) :
  Read_headers fuel c resp n = Some h -> (fuel <= fuel')%nat ->
  Read_headers fuel' c resp n = Some h.
Proof.
  revert fuel' c resp n. induction fuel as [|fuel IH]; intros fuel' c resp n; [discriminate|].
  destruct fuel' as [|fuel']; [lia|]. intros H Hle. simpl in *.
  destruct (readLine c) as [c' [line|err]]; [|done].
  destruct (len line =? 0).
  { destruct (String.eqb (internal.ContentType resp) ""); [|done]. apply IH; [done | lia]. }
  destruct (IndexByte line ":" <=? 0); [done|].
  destruct (store_header _ _ resp n) as [[resp' n']|err]; [|done].
  apply IH; [done | lia].
Qed.

Lemma Read_headers_enough (fuel : nat) (c : Conn) (resp : Response) (n : Z) :
  (String.length (pending (r c)) < fuel)%nat ->
  is_Some (Read_headers fuel c resp n).
Proof.
  revert c resp n. induction fuel as [|fuel IH]; intros c resp n Hlt; [lia|].
  simpl. destruct (readLine c) as [c' [line|err]] eqn:El; [|by eexists].
  apply readLine_inl in El as [_ Hlen].
  destruct (len line =? 0).
  { destruct (String.eqb (internal.ContentType resp) ""); [|by eexists]. apply IH. lia. }
  destruct (IndexByte line ":" <=? 0); [by eexists|].
  destruct (store_header _ _ resp n) as [[resp' n']|err]; [|by eexists].
  apply IH. lia.
Qed.

Lemma Read_headers_fuel (fuel fuel' : nat) (c : Conn) (resp : Response) (n : Z) :
  (String.length (pending (r c)) < fuel)%nat ->
  (String.length (pending (r c)) < fuel')%nat ->
  Read_headers fuel c resp n = Read_headers fuel' c resp n.
Proof.
  intros H1 H2.
  destruct (Read_headers_enough fuel c resp n H1) as [h Hh].
  destruct (Read_headers_enough fuel' c resp n H2) as [h' Hh'].
  destruct (Nat.le_ge_cases fuel fuel') as [Hle|Hle].
  - rewrite (Read_headers_mono _ _ _ _ _ _ Hh Hle). done.
  - rewrite (Read_headers_mono _ _ _ _ _ _ Hh' Hle). done.
Qed.

Lemma make_Some (n : Z) : 0 <= n <= maxAlloc -> make n = Some n.
Proof.
  intros [H0 H1]. unfold make.
  destruct (Z.leb_spec 0 n); [|lia]. by destruct (Z.leb_spec n maxAlloc); [|lia].
Qed.

Lemma make_None (n : Z) : maxAlloc < n -> make n = None.
Proof.
  intros H. unfold make. destruct (Z.leb_spec n maxAlloc); [lia|].
  by rewrite andb_false_r.
Qed.

(** [Read] returns on every stream, unless [make] panics: the header block
    ends with a declared length above [maxAlloc]. *)
Lemma Read_None (c : Conn) :
  Read c = None <->
  exists c1 resp N,
    Read_headers (Read_fuel c) c Response_zero 0 = Some (hdr_break c1 resp N) /\
    maxAlloc < N.
Proof.
  unfold Read, Read_fuel.
  destruct (Read_headers_enough (S (String.length (pending (r c)))) c Response_zero 0)
    as [h ->]; [lia|].
  destruct h as [c1 resp N|c1 resp err]; simpl.
  - destruct (Z.gtb_spec N 0) as [Hpos|Hneg].
    + destruct (Z.le_gt_cases N maxAlloc) as [Hle|Hgt].
      * rewrite make_Some by lia. split.
        { by destruct (ReadFull c1 N) as [c2 [body|err]]. }
        intros (? & ? & ? & [= _ _ <-] & ?). lia.
      * rewrite make_None by lia. split; [|done]. intros _. by eexists _, _, _.
    + split; [done|]. intros (? & ? & ? & [= _ _ <-] & ?). unfold maxAlloc in *. lia.
  - split; [done|]. by intros (? & ? & ? & ? & ?).
Qed.

(** ** What [Read] does to the connection *)

Lemma with_pending_id (c : Conn) : with_pending c (pending (r c)) = c.
Proof. by destruct c as [[p e] wr t]. Qed.

Lemma with_pending_twice (c : Conn) (a b : string) :
  with_pending (with_pending c a) b = with_pending c b.
Proof. done. Qed.

Lemma readLine_conn (c c' : Conn) (x : string + error) :
  readLine c = (c', x) ->
  c' = with_pending c (pending (r c')) /\
  exists taken, pending (r c) = taken +:+ pending (r c').
Proof.
  destruct x as [line|err]; intros H.
  - pose proof (readLine_inl _ _ _ H) as [Hc _]. split; [done|].
    revert H. unfold readLine. destruct (pending (r c)) as [|x s] eqn:E; [discriminate|].
    destruct (cut_newline (String x s)) as [l [rest|]] eqn:Ec; intros [= <- _]; simpl.
    + apply cut_newline_Some in Ec as [-> _]. exists (l +:+ String LF "").
      by rewrite append_assoc.
    + exists (String x s). by rewrite append_nil_r.
  - apply readLine_inr in H as (-> & _ & _). split; [by rewrite with_pending_id|].
    by exists "".
Qed.

Lemma Read_headers_conn (fuel : nat) (c : Conn) (resp : Response) (n : Z) (h : headers) :
  Read_headers fuel c resp n = Some h ->
  headers_conn h = with_pending c (pending (r (headers_conn h))) /\
  exists taken, pending (r c) = taken +:+ pending (r (headers_conn h)).
Proof.
  revert c resp n. induction fuel as [|fuel IH]; intros c resp n; [discriminate|].
  simpl. destruct (readLine c) as [c' x] eqn:El.
  apply readLine_conn in El as (Hc' & taken & Ht).
  assert (Hnext : forall resp' n',
    Read_headers fuel c' resp' n' = Some h ->
    headers_conn h = with_pending c (pending (r (headers_conn h))) /\
    exists taken, pending (r c) = taken +:+ pending (r (headers_conn h))).
  { intros resp' n' H. apply IH in H as (Hh & taken' & Ht'). split.
    - rewrite Hh, Hc'. done.
    - exists (taken +:+ taken'). by rewrite Ht, Ht', append_assoc. }
  assert (Hhere : forall h', headers_conn h' = c' -> Some h' = Some h ->
    headers_conn h = with_pending c (pending (r (headers_conn h))) /\
    exists taken, pending (r c) = taken +:+ pending (r (headers_conn h))).
  { intros h' Eh [= <-]. rewrite Eh. split; [done | by exists taken]. }
  destruct x as [line|err]; [|by apply Hhere].
  destruct (len line =? 0).
  { destruct (String.eqb (internal.ContentType resp) ""); [apply Hnext | by apply Hhere]. }
  destruct (IndexByte line ":" <=? 0); [by apply Hhere|].
  destruct (store_header _ _ resp n) as [[resp' n']|err]; [apply Hnext | by apply Hhere].
Qed.


(** ** Blank lines *)

(** C1, as stated, fails: after a [Reply-Text] header alone the blank line
    is skipped, and [Read] goes on to the end of the stream. *)
Lemma Read_blank_after_reply_text_skipped :
  Read (peer ("Reply-Text: +OK" +:+ CRLF +:+ CRLF)) =
  Some (peer "", mkResponse "" "+OK" "" "", Some io_EOF).
Proof. reflexivity. Qed.

(** Two frames run together when the first has no content type. *)
Example Read_merges_frames :
  Read (peer ("Reply-Text: +OK" +:+ CRLF +:+ CRLF +:+
              "Content-Type: command/reply" +:+ CRLF +:+ CRLF)) =
  Some (peer "", mkResponse "command/reply" "+OK" "" "", None).
Proof. reflexivity. Qed.

(** C1, amended.  A blank line is skipped as long as the response has no
    content type yet, whatever other headers were read; in particular [Read]
    ignores a blank line at the start of a frame.  Once a non-empty
    [Content-Type] has been read, a blank line ends the header block. *)
Theorem Read_blank_line (c : Conn) (eol rest : string) :
  line_end eol -> pending (r c) = eol +:+ rest ->
  Read c = Read (with_pending c rest) /\
  (forall fuel resp n,
      internal.ContentType resp = "" ->
      Read_headers (S fuel) c resp n = Read_headers fuel (with_pending c rest) resp n) /\
  (forall fuel resp n,
      internal.ContentType resp <> "" ->
      Read_headers (S fuel) c resp n = Some (hdr_break (with_pending c rest) resp n)).
Proof.
  intros Heol Hc.
  assert (Hstep : forall fuel resp n,
    Read_headers (S fuel) c resp n =
    if String.eqb (internal.ContentType resp) ""
    then Read_headers fuel (with_pending c rest) resp n
    else Some (hdr_break (with_pending c rest) resp n)).
  { intros fuel resp n. simpl. by rewrite (readLine_blank c eol rest Heol Hc). }
  split; [|split].
  - unfold Read, Read_fuel. rewrite Hstep. simpl String.eqb. cbv iota.
    f_equal. apply Read_headers_fuel; simpl.
    + rewrite Hc, length_append. destruct Heol as [-> | ->]; simpl; lia.
    + lia.
  - intros fuel resp n E. rewrite Hstep, E. done.
  - intros fuel resp n E. rewrite Hstep.
    by destruct (String.eqb_spec (internal.ContentType resp) "").
Qed.

Lemma Read_blank_line_witness :
  Read (peer (CRLF +:+ "Content-Type: auth/request" +:+ CRLF +:+ CRLF)) =
  Read (peer ("Content-Type: auth/request" +:+ CRLF +:+ CRLF)).
Proof.
  apply (Read_blank_line
           (peer (CRLF +:+ "Content-Type: auth/request" +:+ CRLF +:+ CRLF)) CRLF
           ("Content-Type: auth/request" +:+ CRLF +:+ CRLF)).
  - right. reflexivity.
  - reflexivity.
Defined.

(** ** Slices and searches *)

Lemma take_app (a b : string) : take (String.length a) (a +:+ b) = a.
Proof. induction a as [|c a IH]; [by destruct b | by rewrite append_cons; simpl; rewrite IH]. Qed.

Lemma drop_app (a b : string) : drop (String.length a) (a +:+ b) = b.
Proof. induction a as [|c a IH]; [by destruct b | by rewrite append_cons; simpl; rewrite IH]. Qed.

Lemma take_drop (n : nat) (s : string) : take n s +:+ drop n s = s.
Proof.
  revert s. induction n as [|n IH]; intros [|c s]; simpl; try done.
  by rewrite append_cons, IH.
Qed.


Lemma contains_cons (c x : ascii) (s : string) :
  contains c (String x s) <-> x = c \/ contains c s.
Proof.
  split.
  - intros ([|y a] & b & E).
    + rewrite append_nil_l in E. injection E as -> _. by left.
    + rewrite append_cons in E. injection E as _ ->. right. by exists a, b.
  - intros [-> | (a & b & ->)].
    + by exists "", s.
    + by exists (String x a), b.
Qed.

Lemma contains_nil (c : ascii) : ~ contains c "".
Proof. intros ([|y a] & b & E); discriminate. Qed.

Lemma IndexByte_range (s : string) (c : ascii) :
  IndexByte s c = -1 \/ 0 <= IndexByte s c.
Proof.
  induction s as [|x s IH]; simpl; [by left|].
  destruct (Ascii.eqb x c); [right; lia|].
  destruct (Z.ltb_spec (IndexByte s c) 0); [by left | right; lia].
Qed.

Lemma IndexByte_absent (s : string) (c : ascii) :
  ~ contains c s -> IndexByte s c = -1.
Proof.
  induction s as [|x s IH]; intros H; simpl; [done|].
  rewrite contains_cons in H.
  destruct (Ascii.eqb_spec x c) as [->|]; [tauto|].
  rewrite IH by tauto. done.
Qed.

Lemma IndexByte_present (s : string) (c : ascii) :
  contains c s -> 0 <= IndexByte s c.
Proof.
  induction s as [|x s IH]; intros H; [by apply contains_nil in H|].
  simpl. destruct (Ascii.eqb_spec x c) as [->|Hne]; [done|].
  apply contains_cons in H as [? | H]; [done|]. specialize (IH H).
  destruct (Z.ltb_spec (IndexByte s c) 0); lia.
Qed.

Lemma IndexByte_first (a b : string) (c : ascii) :
  ~ contains c a -> IndexByte (a +:+ String c b) c = len a.
Proof.
  unfold len. induction a as [|x a IH]; intros H.
  - rewrite append_nil_l. simpl. by rewrite Ascii.eqb_refl.
  - rewrite append_cons. rewrite contains_cons in H. simpl IndexByte.
    destruct (Ascii.eqb_spec x c) as [->|]; [tauto|].
    rewrite IH by tauto.
    destruct (Z.ltb_spec (Z.of_nat (String.length a)) 0); simpl String.length; lia.
Qed.

Lemma trimLeft_spec (b : string) :
  exists ws, b = ws +:+ trimLeft b /\ blanks ws /\ ~ starts_blank (trimLeft b).
Proof.
  induction b as [|x b (ws & E & Hws & Hnb)].
  - exists "". repeat split. intros (c & s' & [=] & _).
  - simpl trimLeft.
    destruct (Ascii.eqb_spec x SP) as [->|Hsp]; simpl.
    { exists (String SP ws). rewrite append_cons, <- E. repeat split; auto. }
    destruct (Ascii.eqb_spec x TAB) as [->|Htab]; simpl.
    { exists (String TAB ws). rewrite append_cons, <- E. repeat split; auto. }
    exists "". repeat split. intros (c & s' & [= -> _] & [? | ?]); done.
Qed.

(** ** Header lines *)

Lemma len_nonempty (s : string) : s <> "" -> (len s =? 0) = false.
Proof. destruct s; [done|]. intros _. unfold len. simpl. lia. Qed.

(** C8.  A line that is not blank and has no [':'] makes [Read] fail with the
    malformed-header error, wherever in the header block it stands (and so
    also as the first line of a frame); no response is returned without that
    error.  A line [name:raw] with a non-empty name is stored under [name]
    with the value [raw] less its leading spaces and tabs. *)
Theorem Read_header_line (c c' : Conn) (line : string) :
  readLine c = (c', inl line) ->
  (line <> "" -> ~ contains ":" line ->
   (forall fuel resp n,
       Read_headers (S fuel) c resp n ≫= Read_body =
       Some (c', resp, Some (fmt_Errorf "malformed header line: %q" (arg_q line)))) /\
   Read c =
     Some (c', Response_zero, Some (fmt_Errorf "malformed header line: %q" (arg_q line)))) /\
  (forall name raw,
      line = name +:+ String ":" raw -> name <> "" -> ~ contains ":" name ->
      (exists ws, raw = ws +:+ trimLeft raw /\ blanks ws /\ ~ starts_blank (trimLeft raw)) /\
      (forall fuel resp n,
          Read_headers (S fuel) c resp n =
          match store_header name (trimLeft raw) resp n with
          | inl (resp', n') => Read_headers fuel c' resp' n'
          | inr err => Some (hdr_return c' resp err)
          end) /\
      (forall resp n,
          store_header "Content-Type" (trimLeft raw) resp n =
            inl (mkResponse (trimLeft raw) (Text resp) (JobUUID resp) (internal.Body resp), n) /\
          store_header "Reply-Text" (trimLeft raw) resp n =
            inl (mkResponse (internal.ContentType resp) (trimLeft raw) (JobUUID resp)
                   (internal.Body resp), n) /\
          store_header "Job-UUID" (trimLeft raw) resp n =
            inl (mkResponse (internal.ContentType resp) (Text resp) (trimLeft raw)
                   (internal.Body resp), n))).
Proof.
  intros Hline. split.
  - intros Hne Hcolon.
    assert (Hstep : forall fuel resp n,
      Read_headers (S fuel) c resp n ≫= Read_body =
      Some (c', resp, Some (fmt_Errorf "malformed header line: %q" (arg_q line)))).
    { intros fuel resp n. simpl Read_headers.
      rewrite Hline, (len_nonempty _ Hne), (IndexByte_absent _ _ Hcolon). done. }
    split; [done|]. apply Hstep.
  - intros name raw -> Hname Hcolon. split; [apply trimLeft_spec|]. split; [|done].
    intros fuel resp n. simpl Read_headers. rewrite Hline.
    rewrite len_nonempty by (by destruct name).
    rewrite (IndexByte_first _ _ _ Hcolon).
    assert (0 < len name) by (destruct name; [done | unfold len; simpl; lia]).
    destruct (Z.leb_spec (len name) 0); [lia|].
    unfold len. rewrite Nat2Z.id.
    replace (Z.to_nat (Z.of_nat (String.length name) + 1)) with (S (String.length name)) by lia.
    rewrite take_app.
    change (S (String.length name)) with (String.length (String ":"%char name)).
    replace (drop (String.length (String ":" name)) (name +:+ String ":" raw)) with raw; [done|].
    clear. induction name as [|x name IH]; [done|]. rewrite append_cons. simpl in *. done.
Qed.

Lemma Read_header_line_witness :
  Read (peer ("Content-Type command/reply" +:+ CRLF)) =
  Some (peer "", Response_zero,
        Some (fmt_Errorf "malformed header line: %q" (arg_q "Content-Type command/reply"))).
Proof.
  apply (proj1 (Read_header_line (peer ("Content-Type command/reply" +:+ CRLF)) (peer "")
                  "Content-Type command/reply" eq_refl)).
  - discriminate.
  - intros H. by apply IndexByte_present in H.
Defined.

(** ** Bodies *)

Example Atoi_samples :
  Atoi "5" = Some 5 /\ Atoi "+5" = Some 5 /\ Atoi "-5" = Some (-5) /\ Atoi "005" = Some 5 /\
  Atoi "" = None /\ Atoi "5 " = None /\ Atoi "0x5" = None /\
  Atoi "9223372036854775807" = Some 9223372036854775807 /\
  Atoi "9223372036854775808" = None.
Proof. repeat split. Qed.

Lemma store_header_Body (key value : string) (resp resp' : Response) (n n' : Z) :
  store_header key value resp n = inl (resp', n') ->
  internal.Body resp' = internal.Body resp.
Proof.
  unfold store_header.
  repeat match goal with
         | |- context [String.eqb ?a ?b] => destruct (String.eqb a b)
         | |- context [Atoi ?v] => destruct (Atoi v)
         end;
    intros H; inversion H; subst; done.
Qed.

Lemma Read_headers_Body (fuel : nat) (c c1 : Conn) (resp resp1 : Response) (n n1 : Z) :
  Read_headers fuel c resp n = Some (hdr_break c1 resp1 n1) ->
  internal.Body resp1 = internal.Body resp.
Proof.
  revert c resp n. induction fuel as [|fuel IH]; intros c resp n; [discriminate|].
  simpl. destruct (readLine c) as [c' [line|err]]; [|discriminate].
  destruct (len line =? 0).
  { destruct (String.eqb (internal.ContentType resp) "");
      [apply IH | by intros H; inversion H]. }
  destruct (IndexByte line ":" <=? 0); [discriminate|].
  destruct (store_header _ _ resp n) as [[resp' n']|err] eqn:E; [|discriminate].
  intros H. rewrite (IH _ _ _ H). by apply store_header_Body in E.
Qed.

(** The same frame cut short after three bytes of body. *)
Example Read_body_truncated :
  Read (peer ("Content-Type: api/response" +:+ CRLF +:+ "Content-Length: 5" +:+ CRLF
              +:+ CRLF +:+ "hel")) =
  Some (peer "", mkResponse "api/response" "" "" "",
        Some (fmt_Errorf "failed to read response body: %w" (arg_w io_ErrUnexpectedEOF))).
Proof. reflexivity. Qed.

(** ** Handshake *)

Lemma Write_command (c : Conn) (x : ascii) (cmd : string) :
  broken (w c) = None ->
  Write c (String x cmd) =
  (with_sent c (sent (w c) +:+ String x cmd +:+ String LF (String LF "")), None).
Proof. intros H. unfold Write. simpl. by rewrite H. Qed.

(** C2.  The handshake reads one frame.  A rude rejection fails with
    ["access denied"], a disconnect notice with the server-disconnect error,
    any content type other than the auth request with an error that names the
    type.  On an auth request the command [auth <password>] is written and
    one reply is read; the handshake fails with an error naming the type if
    the reply is not a command reply, with ["invalid password"] if its text
    does not start with ["+OK"], and succeeds otherwise.  Nothing is read or
    written a second time. *)
Theorem auth_handshake (c c1 : Conn) (password : string) (resp : Response) :
  Read c = Some (c1, resp, None) ->
  (internal.ContentType resp = ctReject ->
   auth c password = Some (c1, Some ErrAccessDenied) /\
   Error ErrAccessDenied = Some "access denied") /\
  (internal.ContentType resp = ctDisconnect ->
   auth c password = Some (c1, Some (fmt_Errorf "server disconnect: %w" (arg_w io_EOF)))) /\
  (internal.ContentType resp <> ctReject ->
   internal.ContentType resp <> ctDisconnect ->
   internal.ContentType resp <> ctAuth ->
   auth c password =
     Some (c1, Some (fmt_Errorf "unexpected auth request content type: %s"
                       (arg_s (internal.ContentType resp)))) /\
   Error (fmt_Errorf "unexpected auth request content type: %s"
            (arg_s (internal.ContentType resp))) =
     Some ("unexpected auth request content type: " +:+ internal.ContentType resp)) /\
  (internal.ContentType resp = ctAuth ->
   broken (w c1) = None ->
   exists c1',
     Write c1 ("auth " +:+ password) = (c1', None) /\
     sent (w c1') = sent (w c1) +:+ "auth " +:+ password +:+ String LF (String LF "") /\
     r c1' = r c1 /\
     forall c2 reply,
       Read c1' = Some (c2, reply, None) ->
       (internal.ContentType reply <> ctCommandReply ->
        auth c password =
          Some (c2, Some (fmt_Errorf "unexpected auth response content type: %s"
                            (arg_s (internal.ContentType reply))))) /\
       (internal.ContentType reply = ctCommandReply ->
        ~ starts_with "+OK" (Text reply) ->
        auth c password = Some (c2, Some ErrInvalidPassword) /\
        Error ErrInvalidPassword = Some "invalid password") /\
       (internal.ContentType reply = ctCommandReply ->
        starts_with "+OK" (Text reply) ->
        auth c password = Some (c2, None))).
Proof.
  intros Hread. unfold auth. rewrite Hread. split; [|split; [|split]].
  - intros ->. done.
  - intros ->. done.
  - intros H1 H2 H3. split.
    + destruct (String.eqb_spec (internal.ContentType resp) ctReject); [done|].
      destruct (String.eqb_spec (internal.ContentType resp) ctDisconnect); [done|].
      destruct (String.eqb_spec (internal.ContentType resp) ctAuth); done.
    + simpl. by rewrite append_nil_r.
  - intros Hct Hw. rewrite Hct. simpl String.eqb. cbv iota.
    change ("auth " +:+ password) with (String "a" ("uth " +:+ password)).
    eexists. split; [by apply Write_command|]. split; [done|]. split; [done|].
    intros c2 reply Hreply. unfold internal.Send. rewrite (Write_command _ _ _ Hw), Hreply.
    split; [|split].
    + intros Hn. by destruct (String.eqb_spec (internal.ContentType reply) ctCommandReply).
    + intros Hc Hp. rewrite Hc. simpl String.eqb. simpl negb. cbv iota. split; [|done].
      destruct (HasPrefix (Text reply) "+OK") eqn:E; [|done].
      exfalso. apply Hp. by apply HasPrefix_true.
    + intros Hc Hp. rewrite Hc. simpl String.eqb. simpl negb. cbv iota.
      apply HasPrefix_true in Hp. by rewrite Hp.
Qed.

Lemma auth_handshake_witness :
  auth (peer ("Content-Type: text/rude-rejection" +:+ CRLF +:+ CRLF)) "ClueCon" =
    Some (peer "", Some ErrAccessDenied) /\
  Error ErrAccessDenied = Some "access denied".
Proof.
  apply (proj1 (auth_handshake
                  (peer ("Content-Type: text/rude-rejection" +:+ CRLF +:+ CRLF)) (peer "")
                  "ClueCon" (mkResponse "text/rude-rejection" "" "" "") eq_refl)).
  reflexivity.
Defined.

(** A whole handshake: the request, the command on the wire, the reply. *)
Example auth_accepts :
  auth (peer ("Content-Type: auth/request" +:+ CRLF +:+ CRLF +:+
              "Content-Type: command/reply" +:+ CRLF +:+
              "Reply-Text: +OK accepted" +:+ CRLF +:+ CRLF)) "ClueCon" =
  Some (mkConn (mkReader "" io_EOF)
          (mkWriter ("auth ClueCon" +:+ String LF (String LF "")) None) 0, None).
Proof. reflexivity. Qed.

Example auth_wrong_password :
  auth (peer ("Content-Type: auth/request" +:+ CRLF +:+ CRLF +:+
              "Content-Type: command/reply" +:+ CRLF +:+
              "Reply-Text: -ERR invalid" +:+ CRLF +:+ CRLF)) "ClueCon" =
  Some (mkConn (mkReader "" io_EOF)
          (mkWriter ("auth ClueCon" +:+ String LF (String LF "")) None) 0,
        Some ErrInvalidPassword).
Proof. reflexivity. Qed.

(** ** Events *)

(** C10.  [ContentType] returns what the event holds under the key
    ["Content-Length"]: the value stored there when there is one, whatever
    the event holds under ["Content-Type"], and the empty string when there
    is none, or when the event is [nil].  Storing a ["Content-Type"] header
    does not change it, and storing a ["Content-Length"] header sets it. *)
Theorem Event_ContentType_is_content_length (e : Event) :
  eslmon.ContentType e = Get e "Content-Length" /\
  eslmon.ContentType None = "" /\
  (forall m : gmap string string,
      m !! "Content-Length" = None -> eslmon.ContentType (Some m) = "") /\
  (forall (m : gmap string string) (v : string),
      m !! "Content-Length" = Some v ->
      eslmon.ContentType (Some m) = v /\ Get (Some m) "Content-Length" = v) /\
  (forall (m : gmap string string) (v : string),
      eslmon.ContentType (Some (<["Content-Length" := v]> m)) = v) /\
  (forall (m : gmap string string) (v : string),
      eslmon.ContentType (Some (<["Content-Type" := v]> m)) = eslmon.ContentType (Some m)).
Proof.
  split; [done|]. split; [done|]. split; [|split; [|split]].
  - intros m H. unfold eslmon.ContentType, Get, contentLengthKey. by rewrite H.
  - intros m v H. unfold eslmon.ContentType, Get, contentLengthKey. by rewrite H.
  - intros m v. unfold eslmon.ContentType, Get, contentLengthKey.
    by rewrite lookup_insert_eq.
  - intros m v. unfold eslmon.ContentType, Get, contentLengthKey.
    by rewrite lookup_insert_ne.
Qed.

Lemma Event_ContentType_is_content_length_witness :
  eslmon.ContentType
    (Some {["Content-Length" := "526"; "Content-Type" := "text/event-json"]}) = "526" /\
  Get (Some {["Content-Length" := "526"; "Content-Type" := "text/event-json"]})
    "Content-Length" = "526".
Proof.
  apply (proj1 (proj2 (proj2 (proj2 (Event_ContentType_is_content_length None))))).
  reflexivity.
Defined.

(** ** Subscribers *)

Lemma strip_custom_prefixed (name : string) : strip_custom ("CUSTOM " +:+ name) = name.
Proof. unfold strip_custom. by rewrite CutPrefix_app. Qed.

Lemma strip_custom_other (name : string) :
  ~ starts_with "CUSTOM " name -> strip_custom name = name.
Proof.
  unfold strip_custom. intros H.
  destruct (CutPrefix name "CUSTOM ") as [x [|]] eqn:E.
  - exfalso. apply H. exists x. by apply CutPrefix_true.
  - by apply CutPrefix_false in E as [-> _].
Qed.

Lemma wildcard_name_dec (name : string) :
  (String.eqb name "" || String.eqb name "*" || EqualFold name "all") = true <->
  wildcard_name name.
Proof.
  unfold wildcard_name. rewrite !orb_true_iff, !String.eqb_eq. tauto.
Qed.

Lemma newSubscriber_names_wildcard (events : list string) (acc : gset string) :
  Exists wildcard_name events -> newSubscriber_names events acc = None.
Proof.
  revert acc. induction events as [|name events IH]; intros acc H; [by inversion H|].
  simpl. destruct (String.eqb name "" || String.eqb name "*" || EqualFold name "all") eqn:E;
    [done|].
  inversion H as [? ? Hw | ? ? Hw]; subst.
  - apply wildcard_name_dec in Hw. congruence.
  - destruct (CutPrefix name "CUSTOM ") as [name' ok]. by apply IH.
Qed.

Lemma newSubscriber_names_filter (events : list string) (acc : gset string) :
  Forall (fun name => ~ wildcard_name name) events ->
  newSubscriber_names events acc = Some (list_to_set (strip_custom <$> events) ∪ acc).
Proof.
  revert acc. induction events as [|name events IH]; intros acc H.
  - simpl. f_equal. set_solver.
  - inversion H as [|? ? Hn Hrest]; subst. simpl.
    destruct (String.eqb name "" || String.eqb name "*" || EqualFold name "all") eqn:E.
    { by apply wildcard_name_dec in E. }
    unfold strip_custom at 1. destruct (CutPrefix name "CUSTOM ") as [name' ok]. simpl.
    rewrite (IH _ Hrest). f_equal. set_solver.
Qed.

(** C3, as stated, fails: an empty name is neither ["*"] nor ["all"], yet it
    makes the subscriber a wildcard; the set [{""}] is not stored, and an
    event named [HEARTBEAT], which is not in that set, is delivered. *)
Lemma newSubscriber_empty_name_takes_all :
  [""] <> [] /\ ("*" ∉ [""]) /\ EqualFold "" "all" = false /\
  newSubscriber (Some 7%nat) [""] = Some (mkSubscriber None 7) /\
  Names (mkSubscriber None 7) <> Some (list_to_set (strip_custom <$> [""])) /\
  (Name (named "HEARTBEAT") ∉ (list_to_set (strip_custom <$> [""]) : gset string)) /\
  Handle (mkSubscriber None 7) (named "HEARTBEAT") ∅ =
    (true, {[7%nat := [named "HEARTBEAT"]]}).
Proof.
  split; [done|]. split; [set_solver|]. split; [done|]. split; [done|].
  split; [done|]. split; [|done].
  vm_compute. set_solver.
Qed.

(** C3, amended.  If the list of names is empty, or some name is empty, is
    ["*"], or equals ["all"] up to case, the subscriber stores no names and
    [Handle] sends every event on its channel and returns [true].  Otherwise
    the names are stored, each less a leading ["CUSTOM "], and [Handle] sends
    the event and returns [true] exactly when the event's [Name] is stored;
    if it is not, [Handle] returns [false] and leaves the channels as they
    were. *)
Theorem newSubscriber_Handle (ch : nat) (events : list string) :
  (events = [] \/ Exists wildcard_name events ->
   newSubscriber (Some ch) events = Some (mkSubscriber None ch) /\
   names_of (mkSubscriber None ch) = ∅ /\
   forall e chans,
     Handle (mkSubscriber None ch) e chans = (true, chan_send ch e chans)) /\
  (events <> [] -> Forall (fun name => ~ wildcard_name name) events ->
   exists names : gset string,
     names = list_to_set (strip_custom <$> events) /\
     newSubscriber (Some ch) events = Some (mkSubscriber (Some names) ch) /\
     forall e chans,
       (Name e ∈ names ->
        Handle (mkSubscriber (Some names) ch) e chans = (true, chan_send ch e chans)) /\
       (Name e ∉ names ->
        Handle (mkSubscriber (Some names) ch) e chans = (false, chans))) /\
  (forall name, strip_custom ("CUSTOM " +:+ name) = name) /\
  (forall name, ~ starts_with "CUSTOM " name -> strip_custom name = name).
Proof.
  split; [|split; [|split]].
  - intros H. split; [|done]. unfold newSubscriber.
    destruct H as [-> | H]; [done|].
    destruct events as [|name events]; [done|].
    by rewrite (newSubscriber_names_wildcard _ _ H).
  - intros Hne Hall. eexists. split; [done|]. split.
    + unfold newSubscriber. destruct events as [|name events]; [done|].
      rewrite (newSubscriber_names_filter _ _ Hall). simpl. do 3 f_equal. set_solver.
    + intros e chans. unfold Handle, has_Name, len_Names. simpl. split; intros Hin.
      * by rewrite bool_decide_eq_true_2.
      * rewrite bool_decide_eq_false_2 by done. simpl.
        destruct events as [|name events]; [done|].
        destruct (Z.eqb_spec (Z.of_nat (size (list_to_set (C := gset string)
                                               (strip_custom <$> name :: events)))) 0)
          as [E|]; [|done].
        exfalso.
        assert (E' : size (list_to_set (C := gset string)
                             (strip_custom <$> name :: events)) = 0%nat) by lia.
        apply size_empty_iff in E'. set_solver.
  - apply strip_custom_prefixed.
  - apply strip_custom_other.
Qed.

Lemma newSubscriber_Handle_witness :
  exists names : gset string,
    names = list_to_set (strip_custom <$> ["CUSTOM conference::maintenance"]) /\
    newSubscriber (Some 7%nat) ["CUSTOM conference::maintenance"] =
      Some (mkSubscriber (Some names) 7) /\
    forall e chans,
      (Name e ∈ names ->
       Handle (mkSubscriber (Some names) 7) e chans = (true, chan_send 7 e chans)) /\
      (Name e ∉ names ->
       Handle (mkSubscriber (Some names) 7) e chans = (false, chans)).
Proof.
  apply (proj1 (proj2 (newSubscriber_Handle 7 ["CUSTOM conference::maintenance"]))).
  - discriminate.
  - repeat constructor. intros [H | [H | H]]; discriminate.
Defined.

(** The subscriber of the example: a custom event passes, a heartbeat does
    not. *)
Example custom_subscriber_filters :
  newSubscriber (Some 7%nat) ["CUSTOM conference::maintenance"] =
    Some (mkSubscriber (Some {["conference::maintenance"]}) 7) /\
  Handle (mkSubscriber (Some {["conference::maintenance"]}) 7)
    (Some {[eventNameKey := "CUSTOM"; eventSubclassKey := "conference::maintenance"]}) ∅ =
    (true, {[7%nat := [Some {[eventNameKey := "CUSTOM";
                              eventSubclassKey := "conference::maintenance"]}]]}) /\
  Handle (mkSubscriber (Some {["conference::maintenance"]}) 7) (named "HEARTBEAT") ∅ =
    (false, ∅).
Proof. repeat split; vm_compute; reflexivity. Qed.

Example EqualFold_all :
  EqualFold "ALL" "all" = true /\ EqualFold "aLl" "all" = true /\
  EqualFold "al" "all" = false /\ EqualFold "all " "all" = false.
Proof. repeat split. Qed.

(** ** The subscription command *)

Lemma subscribe_events_wildcard (subs : list subscriber) (acc : gset string) :
  Exists (fun s => len_Names s = 0) subs -> subscribe_events subs acc = None.
Proof.
  revert acc. induction subs as [|s subs IH]; intros acc H; [by inversion H|].
  simpl. destruct (Z.eqb_spec (len_Names s) 0); [done|].
  inversion H; subst; [done | by apply IH].
Qed.

Lemma subscribe_events_union (subs : list subscriber) (acc : gset string) :
  Forall (fun s => len_Names s <> 0) subs ->
  subscribe_events subs acc = Some (acc ∪ ⋃ (names_of <$> subs)).
Proof.
  revert acc. induction subs as [|s subs IH]; intros acc H.
  - simpl. f_equal. set_solver.
  - inversion H as [|? ? Hs Hrest]; subst. simpl.
    destruct (Z.eqb_spec (len_Names s) 0); [done|].
    rewrite (IH _ Hrest). unfold names_of. f_equal. set_solver.
Qed.

Lemma subscribe_names_fold (l : list string) (cmd custom : string) :
  foldl subscribe_name (cmd, custom) l =
  (cmd +:+ join_names (filter (.∈ eventNames) l),
   custom +:+ join_names (filter (.∉ eventNames) l)).
Proof.
  revert cmd custom. induction l as [|name l IH]; intros cmd custom.
  - simpl. by rewrite !append_nil_r.
  - change (foldl subscribe_name (cmd, custom) (name :: l))
      with (foldl subscribe_name (subscribe_name (cmd, custom) name) l).
    assert (Hs : subscribe_name (cmd, custom) name =
                 if bool_decide (name ∈ eventNames) then (cmd +:+ " " +:+ name, custom)
                 else (cmd, custom +:+ " " +:+ name)) by reflexivity.
    rewrite Hs. clear Hs.
    destruct (decide (name ∈ eventNames)) as [Hin|Hout].
    + rewrite bool_decide_eq_true_2 by done. rewrite IH.
      rewrite filter_cons_True by done. rewrite (filter_cons_False (.∉ eventNames)) by auto.
      simpl. by rewrite !append_assoc.
    + rewrite bool_decide_eq_false_2 by done. rewrite IH.
      rewrite filter_cons_False by done. rewrite (filter_cons_True (.∉ eventNames)) by done.
      simpl. by rewrite !append_assoc.
Qed.

Lemma join_names_len (l : list string) :
  (len (join_names l) >? 0) = match l with [] => false | _ => true end.
Proof.
  destruct l as [|name l]; [done|]. simpl. rewrite append_cons. unfold len. simpl.
  destruct (Z.gtb_spec (Z.of_nat (S (String.length ("" +:+ name +:+ join_names l)))) 0);
    [done | lia].
Qed.

(** C4.  If some subscriber has no names the command is ["event plain ALL"].
    Otherwise the names of all subscribers are united and visited once each,
    in whatever order the map hands them out; the command is ["event plain"],
    then each visited name of the built-in vocabulary after a space, then, if
    any name is outside the vocabulary, one [" CUSTOM"] and each of those
    names after a space. *)
Theorem subscribe_command (range : gset string -> list string) (m : Monitor) :
  (forall s, range s ≡ₚ elements s) ->
  (Exists (fun s => len_Names s = 0) (subscribers m) ->
   subscribe range m = "event plain ALL") /\
  (Forall (fun s => len_Names s <> 0) (subscribers m) ->
   exists order : list string,
     order ≡ₚ elements (⋃ (names_of <$> subscribers m)) /\
     subscribe range m =
       "event plain" +:+ join_names (filter (.∈ eventNames) order) +:+
       match filter (.∉ eventNames) order with
       | [] => ""
       | custom => " CUSTOM" +:+ join_names custom
       end).
Proof.
  intros Hrange. unfold subscribe. split; intros H.
  - by rewrite (subscribe_events_wildcard _ _ H).
  - rewrite (subscribe_events_union _ _ H).
    exists (range (∅ ∪ ⋃ (names_of <$> subscribers m))). split.
    { rewrite Hrange. by rewrite (left_id_L ∅ (∪)). }
    rewrite subscribe_names_fold, append_nil_l, join_names_len.
    destruct (filter (.∉ eventNames) _) as [|name custom].
    + by rewrite append_nil_r.
    + unfold cmdSubscribe.
      destruct (Z.gtb_spec (len ("event plain" +:+ join_names
                  (filter (.∈ eventNames) (range (∅ ∪ ⋃ (names_of <$> subscribers m)))))) 0)
        as [_|Hlen].
      * rewrite !append_assoc. f_equal.
      * exfalso. unfold len in Hlen. rewrite length_append in Hlen. simpl in Hlen. lia.
Qed.

Lemma subscribe_command_witness :
  exists order : list string,
    order ≡ₚ elements (⋃ (names_of <$>
      [mkSubscriber (Some {["HEARTBEAT"]}) 1; mkSubscriber (Some {["my.custom.event"]}) 2])) /\
    subscribe elements
      (mkMonitor "127.0.0.1:8021" "ClueCon" 5
         [mkSubscriber (Some {["HEARTBEAT"]}) 1; mkSubscriber (Some {["my.custom.event"]}) 2]
         5) =
      "event plain" +:+ join_names (filter (.∈ eventNames) order) +:+
      match filter (.∉ eventNames) order with
      | [] => ""
      | custom => " CUSTOM" +:+ join_names custom
      end.
Proof.
  apply (proj2 (subscribe_command elements
    (mkMonitor "127.0.0.1:8021" "ClueCon" 5
       [mkSubscriber (Some {["HEARTBEAT"]}) 1; mkSubscriber (Some {["my.custom.event"]}) 2]
       5) (fun s => reflexivity (elements s)))).
  repeat constructor; vm_compute; discriminate.
Defined.

(** The two subscribers of the example, and a wildcard joining them. *)
Example subscribe_heartbeat_and_custom :
  subscribe elements
    (mkMonitor "127.0.0.1:8021" "ClueCon" 5
       [mkSubscriber (Some {["HEARTBEAT"]}) 1; mkSubscriber (Some {["my.custom.event"]}) 2]
       5) = "event plain HEARTBEAT CUSTOM my.custom.event" /\
  subscribe elements
    (mkMonitor "127.0.0.1:8021" "ClueCon" 5
       [mkSubscriber (Some {["HEARTBEAT"]}) 1; mkSubscriber None 2] 5) = "event plain ALL".
Proof. split; vm_compute; reflexivity. Qed.

(** ** The streaming loop *)

Lemma length_drop (n : nat) (s : string) :
  (String.length (drop n s) <= String.length s)%nat.
Proof.
  revert s. induction n as [|n IH]; intros [|c s]; simpl; try lia.
  specialize (IH s). lia.
Qed.

Lemma Read_headers_break_shrinks (fuel : nat) (c c1 : Conn) (resp resp1 : Response)
    (n n1 : Z) :
  Read_headers fuel c resp n = Some (hdr_break c1 resp1 n1) ->
  (String.length (pending (r c1)) < String.length (pending (r c)))%nat.
Proof.
  revert c resp n. induction fuel as [|fuel IH]; intros c resp n; [discriminate|].
  simpl. destruct (readLine c) as [c' [line|err]] eqn:El; [|discriminate].
  apply readLine_inl in El as [_ Hlen].
  destruct (len line =? 0).
  { destruct (String.eqb (internal.ContentType resp) "").
    - intros H. apply IH in H. lia.
    - intros H. inversion H; subst. done. }
  destruct (IndexByte line ":" <=? 0); [discriminate|].
  destruct (store_header _ _ resp n) as [[resp' n']|err]; [|discriminate].
  intros H. apply IH in H. lia.
Qed.

(** The body part of [Read] after a [break], with the test of [make]
    written out. *)
Lemma Read_body_break (c : Conn) (resp : Response) (n : Z) :
  Read_body (hdr_break c resp n) =
  if n >? 0 then
    if n <=? maxAlloc then
      match ReadFull c n with
      | (c', inr err) =>
          Some (c', resp, Some (fmt_Errorf "failed to read response body: %w" (arg_w err)))
      | (c', inl body) =>
          Some (c', mkResponse (internal.ContentType resp) (Text resp) (JobUUID resp) body,
                None)
      end
    else None
  else Some (c, resp, None).
Proof.
  simpl. destruct (Z.gtb_spec n 0) as [Hpos|]; [|done].
  destruct (Z.leb_spec n maxAlloc); [by rewrite make_Some by lia | by rewrite make_None].
Qed.

(** A successful [Read] takes at least one byte off the stream. *)
Lemma Read_progress (c c' : Conn) (resp : Response) :
  Read c = Some (c', resp, None) ->
  (String.length (pending (r c')) < String.length (pending (r c)))%nat.
Proof.
  unfold Read.
  destruct (Read_headers (Read_fuel c) c Response_zero 0) as [[c1 resp1 n1|c1 resp1 err]|] eqn:E;
    [|discriminate..].
  apply Read_headers_break_shrinks in E.
  change (Some (hdr_break c1 resp1 n1) ≫= Read_body) with (Read_body (hdr_break c1 resp1 n1)).
  rewrite Read_body_break. unfold ReadFull.
  destruct (n1 >? 0); [|by intros [= <- _]].
  destruct (n1 <=? maxAlloc); [|discriminate].
  destruct (n1 <=? len (pending (r c1))); [|discriminate].
  intros [= <- _]. simpl. pose proof (length_drop (Z.to_nat n1) (pending (r c1))). lia.
Qed.

Lemma tail_of_refl (c : Conn) : tail_of c c.
Proof. split; [by rewrite with_pending_id | by exists ""]. Qed.

Lemma tail_of_trans (a b c : Conn) : tail_of a b -> tail_of b c -> tail_of a c.
Proof.
  intros [Hb [t1 H1]] [Hc [t2 H2]]. split.
  - rewrite Hc, Hb. done.
  - exists (t1 +:+ t2). by rewrite H1, H2, append_assoc.
Qed.

(** Whatever [Read] returns, it has only taken bytes off the stream. *)
Lemma Read_conn (c c' : Conn) (resp : Response) (err : option error) :
  Read c = Some (c', resp, err) -> tail_of c c'.
Proof.
  unfold Read.
  destruct (Read_headers (Read_fuel c) c Response_zero 0) as [h|] eqn:E; [|discriminate].
  apply Read_headers_conn in E as (Hc & taken & Ht).
  destruct h as [c1 resp1 n1|c1 resp1 err1]; cbn [headers_conn] in *.
  - change (Some (hdr_break c1 resp1 n1) ≫= Read_body)
      with (Read_body (hdr_break c1 resp1 n1)).
    rewrite Read_body_break. unfold ReadFull.
    destruct (n1 >? 0); [|intros H; inversion H; subst; split; [done | by exists taken]].
    destruct (n1 <=? maxAlloc); [|discriminate].
    destruct (n1 <=? len (pending (r c1))); intros H; inversion H; subst; clear H;
      (split; [simpl; by rewrite Hc|]); simpl.
    + exists (taken +:+ take (Z.to_nat n1) (pending (r c1))).
      by rewrite append_assoc, take_drop.
    + exists (pending (r c)). by rewrite append_nil_r.
  - intros H; inversion H; subst. split; [done | by exists taken].
Qed.

Lemma Unwraps_refl (e : error) : Unwraps e e.
Proof. destruct e; by left. Qed.

Section StreamFacts.
Variable json_Unmarshal : string -> Event -> Event + error.
Variable ctx_Cause : option error.

(** With more fuel than the stream has bytes, the outcome of the loop of
    [Run] does not depend on the fuel. *)
Lemma Run_stream_fuel (fuel fuel' : nat) (m : Monitor) (c : Conn) (chans : channels) :
  (String.length (pending (r c)) < fuel)%nat ->
  (String.length (pending (r c)) < fuel')%nat ->
  Run_stream json_Unmarshal ctx_Cause fuel m c chans =
  Run_stream json_Unmarshal ctx_Cause fuel' m c chans.
Proof.
  revert fuel' c chans. induction fuel as [|fuel IH]; intros fuel' c chans H1 H2; [lia|].
  destruct fuel' as [|fuel']; [lia|]. simpl.
  destruct (Read c) as [[[c' resp] [err|]]|] eqn:E; [done| |done].
  apply Read_progress in E.
  destruct (String.eqb (internal.ContentType resp) "text/event-plain").
  { destruct (parseEvent json_Unmarshal (internal.Body resp)) as [event [err|]]; [done|].
    apply IH; lia. }
  destruct (String.eqb (internal.ContentType resp) "text/disconnect-notice"); [done|].
  apply IH; lia.
Qed.

(** What the loop returns with some fuel, it returns with [Run_fuel]. *)
Lemma Run_stream_agree (f1 : nat) (m : Monitor) (c : Conn) (chans : channels)
    (x : error * Conn * channels) :
  Run_stream json_Unmarshal ctx_Cause f1 m c chans = Some x ->
  Run_stream json_Unmarshal ctx_Cause (Run_fuel c) m c chans = Some x.
Proof.
  assert (H : forall f2, (String.length (pending (r c)) < f2)%nat ->
    Run_stream json_Unmarshal ctx_Cause f1 m c chans = Some x ->
    Run_stream json_Unmarshal ctx_Cause f2 m c chans = Some x).
  { revert c chans. induction f1 as [|f1 IH]; intros c chans f2 Hlt; [discriminate|].
    destruct f2 as [|f2]; [lia|]. simpl.
    destruct (Read c) as [[[c' resp] [err|]]|] eqn:E; [done| |done].
    apply Read_progress in E.
    destruct (String.eqb (internal.ContentType resp) "text/event-plain").
    { destruct (parseEvent json_Unmarshal (internal.Body resp)) as [event [err|]]; [done|].
      apply IH. lia. }
    destruct (String.eqb (internal.ContentType resp) "text/disconnect-notice"); [done|].
    apply IH. lia. }
  apply H. unfold Run_fuel. lia.
Qed.

(** The loop of [Run] returns on every stream, unless a [Read] on what is
    left of the stream panics. *)
Lemma Run_stream_enough (fuel : nat) (m : Monitor) (c : Conn) (chans : channels) :
  (String.length (pending (r c)) < fuel)%nat ->
  is_Some (Run_stream json_Unmarshal ctx_Cause fuel m c chans) \/
  exists c1, tail_of c c1 /\ Read c1 = None.
Proof.
  revert c chans. induction fuel as [|fuel IH]; intros c chans Hlt; [lia|].
  simpl. destruct (Read c) as [[[c' resp] [err|]]|] eqn:E.
  - left. destruct ctx_Cause; by eexists.
  - pose proof (Read_conn _ _ _ _ E) as Htail. apply Read_progress in E.
    assert (Hnext : forall chans0,
      is_Some (Run_stream json_Unmarshal ctx_Cause fuel m c' chans0) \/
      exists c1, tail_of c c1 /\ Read c1 = None).
    { intros chans0. destruct (IH c' chans0) as [? | (c1 & Hc1 & Hp)]; [lia | by left |].
      right. exists c1. split; [by eapply tail_of_trans | done]. }
    destruct (String.eqb (internal.ContentType resp) "text/event-plain").
    { destruct (parseEvent json_Unmarshal (internal.Body resp)) as [event [err|]];
        [left; by eexists | apply Hnext]. }
    destruct (String.eqb (internal.ContentType resp) "text/disconnect-notice");
      [left; by eexists | apply Hnext].
  - right. exists c. split; [apply tail_of_refl | done].
Qed.

Lemma Run_stream_returns (m : Monitor) (c : Conn) (chans : channels) :
  is_Some (Run_stream json_Unmarshal ctx_Cause (Run_fuel c) m c chans) \/
  exists c1, tail_of c c1 /\ Read c1 = None.
Proof. apply Run_stream_enough. unfold Run_fuel. lia. Qed.

(** What the loop can return. *)
Lemma Run_stream_outcome (fuel : nat) (m : Monitor) (c c' : Conn) (chans chans' : channels)
    (res : error) :
  Run_stream json_Unmarshal ctx_Cause fuel m c chans = Some (res, c', chans') ->
  (exists err, res = match ctx_Cause with
                     | Some cause => fmt_Errorf "done: %w" (arg_w cause)
                     | None => fmt_Errorf "read: %w" (arg_w err)
                     end) \/
  (exists err, res = fmt_Errorf "event parse: %w" (arg_w err)) \/
  res = fmt_Errorf "server closed: %w" (arg_w io_EOF).
Proof.
  revert c chans. induction fuel as [|fuel IH]; intros c chans; [discriminate|].
  simpl. destruct (Read c) as [[[c1 resp] [err|]]|]; [| |discriminate].
  - intros H. left. exists err. destruct ctx_Cause; by inversion H.
  - destruct (String.eqb (internal.ContentType resp) "text/event-plain").
    { destruct (parseEvent json_Unmarshal (internal.Body resp)) as [event [err|]].
      - intros H. right. left. exists err. by inversion H.
      - apply IH. }
    destruct (String.eqb (internal.ContentType resp) "text/disconnect-notice").
    + intros H. right. right. by inversion H.
    + apply IH.
Qed.

End StreamFacts.

(** C5.  In the loop of [Run], a failed read ends the run: with the cause of
    the cancellation, wrapped, if the cancellation has fired, and with the
    read error, wrapped, only if it has not.  So a run never ends with the
    read error once the cancellation has fired, and it ends with a cause only
    if there is one.  The loop returns on every stream, unless a [Read] on
    what is left of the stream panics. *)
Theorem Run_read_failure (json_Unmarshal : string -> Event -> Event + error)
    (ctx_Cause : option error) (m : Monitor) (c : Conn) (chans : channels) :
  (forall c' resp err fuel,
      Read c = Some (c', resp, Some err) ->
      Run_stream json_Unmarshal ctx_Cause (S fuel) m c chans =
      Some (match ctx_Cause with
            | Some cause => fmt_Errorf "done: %w" (arg_w cause)
            | None => fmt_Errorf "read: %w" (arg_w err)
            end, c', chans)) /\
  (forall fuel res c' chans',
      Run_stream json_Unmarshal ctx_Cause fuel m c chans = Some (res, c', chans') ->
      (forall err, res = fmt_Errorf "read: %w" (arg_w err) -> ctx_Cause = None) /\
      (forall cause, res = fmt_Errorf "done: %w" (arg_w cause) ->
                     ctx_Cause = Some cause /\ Unwraps res cause)) /\
  (is_Some (Run_stream json_Unmarshal ctx_Cause (Run_fuel c) m c chans) \/
   exists c1, tail_of c c1 /\ Read c1 = None).
Proof.
  split; [|split].
  - intros c' resp err fuel H. simpl. rewrite H. by destruct ctx_Cause.
  - intros fuel res c' chans' H.
    apply Run_stream_outcome in H as [[err H] | [[err ->] | ->]]; [|by split..].
    destruct ctx_Cause as [cause|]; subst res.
    + split; [discriminate|]. intros cause' [= <-]. split; [done|].
      right. apply Unwraps_refl.
    + split; [done | discriminate].
  - apply Run_stream_returns.
Qed.

Lemma Run_read_failure_witness :
  Run_stream json.Unmarshal (Some (errors_New "the end")) 1
    (mkMonitor "127.0.0.1:8021" "ClueCon" 5 [] 5) (peer "Content-Type: text") ∅ =
  Some (fmt_Errorf "done: %w" (arg_w (errors_New "the end")), peer "", ∅).
Proof.
  apply (proj1 (Run_read_failure json.Unmarshal (Some (errors_New "the end"))
                  (mkMonitor "127.0.0.1:8021" "ClueCon" 5 [] 5)
                  (peer "Content-Type: text") ∅)
           (peer "") (mkResponse "text" "" "" "") io_EOF 0%nat).
  reflexivity.
Defined.

(** ** Decoding events *)

Lemma unquote_plain (s : string) : plain s -> json.unquote 0 s = Some s.
Proof.
  induction s as [|c s IH]; [done|]. intros [(H32 & H128 & Hq & Hb) Hs]. simpl.
  rewrite (proj2 (Ascii.eqb_neq _ _) Hb), (proj2 (Ascii.eqb_neq _ _) Hq).
  rewrite (proj2 (N.ltb_ge _ _) H32), (proj2 (N.ltb_lt _ _) H128). simpl.
  by rewrite (IH Hs).
Qed.

Lemma plain_app (s t : string) : plain s -> plain t -> plain (s +:+ t).
Proof.
  induction s as [|c s IH]; [done|]. intros [Hc Hs] Ht. rewrite append_cons.
  split; [done | by apply IH].
Qed.

Lemma in_string_plain (raw : string) (c : ascii) :
  plain_byte c -> json.in_string raw false c = Some (inl (raw +:+ String c "", false)).
Proof.
  intros (H32 & H128 & Hq & Hb). unfold json.in_string.
  rewrite (proj2 (Ascii.eqb_neq _ _) Hb), (proj2 (Ascii.eqb_neq _ _) Hq).
  by rewrite (proj2 (N.ltb_ge _ _) H32).
Qed.

Lemma in_string_close (raw : string) :
  plain raw -> json.in_string raw false json.QUOTE = Some (inr raw).
Proof. intros H. unfold json.in_string. simpl. by rewrite (unquote_plain _ H). Qed.

Lemma run_cons (p : json.phase) (ev : json.dest) (c : ascii) (data : string) :
  json.run p ev (String c data) =
  match json.step p ev c with
  | Some (p', ev') => json.run p' ev' data
  | None => None
  end.
Proof. reflexivity. Qed.

Lemma step_key (raw : string) (esc : bool) (ev : json.dest) (c : ascii) :
  json.step (json.p_key raw esc) ev c =
  match json.in_string raw esc c with
  | Some (inl (raw', esc')) => Some (json.p_key raw' esc', ev)
  | Some (inr key) => Some (json.p_colon key, ev)
  | None => None
  end.
Proof. reflexivity. Qed.

Lemma step_string (key raw : string) (esc : bool) (ev : json.dest) (c : ascii) :
  json.step (json.p_string key raw esc) ev c =
  match json.in_string raw esc c with
  | Some (inl (raw', esc')) => Some (json.p_string key raw' esc', ev)
  | Some (inr value) => Some (json.p_next, json.set_member key value ev)
  | None => None
  end.
Proof. reflexivity. Qed.

(** The decoder inside a literal of plain bytes: at the closing quote, or one
    byte further by the induction hypothesis [IH]. *)
Ltac scan_literal step_eq IH :=
  match goal with
  | Hraw : plain ?raw |- context [json.run _ _ ("" +:+ _)] =>
      rewrite append_nil_l, append_nil_r, run_cons, step_eq;
      by rewrite (in_string_close _ Hraw)
  | Hraw : plain ?raw, Hs : plain (String ?c _) |- _ =>
      destruct Hs as [Hc Hs];
      rewrite append_cons, run_cons, step_eq, (in_string_plain _ _ Hc);
      rewrite IH; [by rewrite append_assoc | by apply plain_app | done]
  end.

Lemma run_key (s raw rest : string) (ev : json.dest) :
  plain raw -> plain s ->
  json.run (json.p_key raw false) ev (s +:+ String json.QUOTE rest) =
  json.run (json.p_colon (raw +:+ s)) ev rest.
Proof.
  revert raw. induction s as [|c s IH]; intros raw Hraw Hs; scan_literal step_key IH.
Qed.

Lemma run_value (key s raw rest : string) (ev : json.dest) :
  plain raw -> plain s ->
  json.run (json.p_string key raw false) ev (s +:+ String json.QUOTE rest) =
  json.run json.p_next (json.set_member key (raw +:+ s) ev) rest.
Proof.
  revert raw. induction s as [|c s IH]; intros raw Hraw Hs; scan_literal step_string IH.
Qed.

Lemma run_member (p : json.phase) (kv : string * string) (rest : string) (ev : json.dest) :
  p = json.p_first \/ p = json.p_key_wanted ->
  plain kv.1 -> plain kv.2 ->
  json.run p ev (member kv +:+ rest) =
  json.run json.p_next (json.set_member kv.1 kv.2 ev) rest.
Proof.
  intros Hp Hk Hv. unfold member, quoted.
  rewrite !append_cons, !append_assoc, !append_cons, !append_assoc, !append_cons,
    append_nil_l.
  transitivity (json.run (json.p_key "" false) ev
                  (kv.1 +:+ String json.QUOTE
                     (String ":" (String json.QUOTE (kv.2 +:+ String json.QUOTE rest))))).
  { by destruct Hp as [-> | ->]. }
  rewrite run_key by done. rewrite append_nil_l.
  change (json.run (json.p_colon kv.1) ev
            (String ":" (String json.QUOTE (kv.2 +:+ String json.QUOTE rest))))
    with (json.run (json.p_string kv.1 "" false) ev (kv.2 +:+ String json.QUOTE rest)).
  by rewrite run_value.
Qed.

Lemma run_members (p : json.phase) (kvs : list (string * string)) (ev : json.dest) :
  p = json.p_first \/ p = json.p_key_wanted -> kvs <> [] ->
  Forall (fun kv => plain kv.1 /\ plain kv.2) kvs ->
  json.run p ev (members kvs +:+ String "}" "") = Some (Some (entries (default ∅ ev) kvs)).
Proof.
  revert p ev. induction kvs as [|kv kvs IH]; intros p ev Hp Hne Hall; [done|].
  inversion Hall as [|? ? [Hk Hv] Hrest]; subst.
  destruct kvs as [|kv' kvs].
  - simpl members. by rewrite run_member.
  - change (members (kv :: kv' :: kvs))
      with (member kv +:+ String "," (members (kv' :: kvs))).
    rewrite append_assoc, run_member by done. rewrite append_cons.
    change (json.run json.p_next (json.set_member kv.1 kv.2 ev)
              (String "," (members (kv' :: kvs) +:+ String "}" "")))
      with (json.run json.p_key_wanted (json.set_member kv.1 kv.2 ev)
              (members (kv' :: kvs) +:+ String "}" "")).
    rewrite IH; [done | by right | done | done].
Qed.

(** The decoder turns the text of a flat object into one entry per member. *)
Lemma Unmarshal_object (kvs : list (string * string)) :
  Forall (fun kv => plain kv.1 /\ plain kv.2) kvs ->
  json.Unmarshal (object kvs) None = inl (Some (entries ∅ kvs)).
Proof.
  intros Hall. unfold json.Unmarshal, object.
  change (json.run json.p_begin None (String "{" (members kvs +:+ String "}" "")))
    with (json.run json.p_first (Some ∅) (members kvs +:+ String "}" "")).
  destruct kvs as [|kv kvs]; [done|].
  rewrite run_members; [done | by left | done | done].
Qed.

Lemma entries_lookup_other (kvs : list (string * string)) (m : gmap string string)
    (key : string) :
  Forall (fun kv => kv.1 <> key) kvs -> entries m kvs !! key = m !! key.
Proof.
  revert m. induction kvs as [|kv kvs IH]; intros m H; [done|].
  inversion H; subst. unfold entries in *. simpl. rewrite IH by done.
  by rewrite lookup_insert_ne.
Qed.

(** C9, as stated, fails: the event decoded from the body
    [{"Event-Name":"HEARTBEAT"}] has that one entry and no entry that holds
    the body, and its [Body] is empty, not the body of the frame. *)
Lemma parseEvent_stores_no_raw_body :
  parseEvent json.Unmarshal (object [("Event-Name", "HEARTBEAT")]) =
    (Some {["Event-Name" := "HEARTBEAT"]}, None) /\
  ({["Event-Name" := "HEARTBEAT"]} : gmap string string) <>
    <[bodyKey := object [("Event-Name", "HEARTBEAT")]]> {["Event-Name" := "HEARTBEAT"]} /\
  eslmon.Body (Some {["Event-Name" := "HEARTBEAT"]}) = "" /\
  eslmon.Body (Some {["Event-Name" := "HEARTBEAT"]}) <> object [("Event-Name", "HEARTBEAT")].
Proof.
  split; [by vm_compute|]. split; [|split; [by vm_compute | by vm_compute]].
  intros H. apply (f_equal (fun m : gmap string string => m !! bodyKey)) in H.
  rewrite lookup_insert_eq in H. by vm_compute in H.
Qed.

(** C9, amended.  When the decoder succeeds, [parseEvent] returns the mapping
    the decoder left, with nothing added: for the text of a flat object, one
    entry per member.  [Body] is the value of the member named ["_body"], and
    is empty when there is none.  When the decoder fails, [parseEvent]
    returns the error, wrapped, and the [nil] event. *)
Theorem parseEvent_decodes (json_Unmarshal : string -> Event -> Event + error)
    (body : string) :
  (forall event,
      json_Unmarshal body None = inl event ->
      parseEvent json_Unmarshal body = (event, None)) /\
  (forall err,
      json_Unmarshal body None = inr err ->
      parseEvent json_Unmarshal body =
        (None, Some (fmt_Errorf "parse event: %w" (arg_w err)))) /\
  (forall kvs,
      Forall (fun kv => plain kv.1 /\ plain kv.2) kvs ->
      parseEvent json.Unmarshal (object kvs) = (Some (entries ∅ kvs), None) /\
      (Forall (fun kv => kv.1 <> bodyKey) kvs ->
       eslmon.Body (Some (entries ∅ kvs)) = "")) /\
  (forall (m : gmap string string) (value : string),
      eslmon.Body (Some (<[bodyKey := value]> m)) = value) /\
  eslmon.Body None = "".
Proof.
  split; [|split; [|split; [|split]]].
  - intros event H. unfold parseEvent. by rewrite H.
  - intros err H. unfold parseEvent. by rewrite H.
  - intros kvs Hall. split.
    + unfold parseEvent. by rewrite (Unmarshal_object _ Hall).
    + intros Hno. unfold eslmon.Body, Get. by rewrite entries_lookup_other.
  - intros m value. unfold eslmon.Body, Get. by rewrite lookup_insert_eq.
  - done.
Qed.

Lemma parseEvent_decodes_witness :
  parseEvent json.Unmarshal (object [("Event-Name", "HEARTBEAT")]) =
    (Some {["Event-Name" := "HEARTBEAT"]}, None).
Proof.
  apply (proj1 (parseEvent_decodes json.Unmarshal (object [("Event-Name", "HEARTBEAT")]))
           (Some {["Event-Name" := "HEARTBEAT"]})).
  by vm_compute.
Defined.

(** A body that is not JSON gives no event. *)
Example parseEvent_rejects :
  parseEvent json.Unmarshal "Event-Name: HEARTBEAT" =
  (None, Some (fmt_Errorf "parse event: %w" (arg_w json_error))).
Proof. reflexivity. Qed.

(** * Further properties *)

(** ** Lines *)

Lemma contains_app (c : ascii) (a b : string) :
  contains c (a +:+ b) <-> contains c a \/ contains c b.
Proof.
  induction a as [|x a IH].
  - rewrite append_nil_l. split; [by right | intros [H | H]; [by apply contains_nil in H | done]].
  - rewrite append_cons, !contains_cons, IH. tauto.
Qed.

Lemma cut_newline_line (line rest : string) :
  ~ contains LF line -> cut_newline (line +:+ String LF rest) = (line, Some rest).
Proof.
  induction line as [|x line IH]; intros H.
  - by rewrite append_nil_l.
  - rewrite append_cons. rewrite contains_cons in H. simpl.
    destruct (Ascii.eqb_spec x LF) as [->|]; [tauto|]. rewrite IH by tauto. done.
Qed.

Lemma cut_newline_whole (s : string) : ~ contains LF s -> cut_newline s = (s, None).
Proof.
  induction s as [|x s IH]; intros H; [done|]. rewrite contains_cons in H. simpl.
  destruct (Ascii.eqb_spec x LF) as [->|]; [tauto|]. rewrite IH by tauto. done.
Qed.

Lemma cut_newline_no_LF (s line : string) (rest : option string) :
  cut_newline s = (line, rest) -> ~ contains LF line.
Proof.
  revert line rest. induction s as [|x s IH]; intros line rest; simpl.
  - intros [= <- _]. apply contains_nil.
  - destruct (Ascii.eqb_spec x LF) as [->|Hx].
    + intros [= <- _]. apply contains_nil.
    + destruct (cut_newline s) as [l o]. intros [= <- _]. rewrite contains_cons.
      intros [? | ?]; [done|]. by eapply IH.
Qed.

Lemma drop_last_CR_app (line : string) : drop_last_CR (line +:+ String CR "") = line.
Proof.
  induction line as [|x line IH]; [done|]. rewrite append_cons.
  destruct line as [|y line]; [done|]. rewrite append_cons in *. simpl in *. by rewrite IH.
Qed.

Lemma drop_last_CR_spec (line : string) :
  line = drop_last_CR line \/ line = drop_last_CR line +:+ String CR "".
Proof.
  induction line as [|x line IH]; [by left|].
  destruct line as [|y line].
  - simpl. destruct (Ascii.eqb_spec x CR) as [->|]; [by right | by left].
  - change (drop_last_CR (String x (String y line)))
      with (String x (drop_last_CR (String y line))).
    rewrite append_cons. destruct IH as [IH | IH]; [left | right]; by rewrite <- IH.
Qed.

Lemma drop_last_CR_contains (c : ascii) (line : string) :
  contains c (drop_last_CR line) -> contains c line.
Proof.
  intros H. destruct (drop_last_CR_spec line) as [E | E]; rewrite E; [done|].
  apply contains_app. by left.
Qed.

(** X1.  A line that holds no line feed, written with the line end [CRLF],
    is read back byte for byte, and the bytes after it stay in the stream;
    written with a bare line feed it is read back less one trailing carriage
    return. *)
Theorem readLine_round_trip (c : Conn) (line rest : string) :
  ~ contains LF line ->
  (pending (r c) = line +:+ CRLF +:+ rest ->
   readLine c = (with_pending c rest, inl line)) /\
  (pending (r c) = line +:+ String LF rest ->
   readLine c = (with_pending c rest, inl (drop_last_CR line))).
Proof.
  intros Hline. split; intros Hc; unfold readLine; rewrite Hc.
  - unfold CRLF. rewrite !append_cons, append_nil_l.
    replace (line +:+ String CR (String LF rest))
      with ((line +:+ String CR "") +:+ String LF rest)
      by (by rewrite append_assoc, append_cons, append_nil_l).
    rewrite cut_newline_line.
    + rewrite drop_last_CR_app. by destruct line.
    + rewrite contains_app, contains_cons. intros [? | [? | H]]; [done | done |].
      by apply contains_nil in H.
  - rewrite cut_newline_line by done. by destruct line.
Qed.

Lemma readLine_round_trip_witness :
  readLine (peer ("Reply-Text: +OK" +:+ CRLF +:+ "Job-UUID: 7")) =
  (with_pending (peer ("Reply-Text: +OK" +:+ CRLF +:+ "Job-UUID: 7")) "Job-UUID: 7",
   inl "Reply-Text: +OK").
Proof.
  apply (proj1 (readLine_round_trip (peer ("Reply-Text: +OK" +:+ CRLF +:+ "Job-UUID: 7"))
                  "Reply-Text: +OK" "Job-UUID: 7"
                  (fun H => Zle_not_lt _ _ (IndexByte_present _ _ H) eq_refl))).
  reflexivity.
Defined.

(** X2.  What [readLine] returns was in the stream: the line holds no line
    feed, and the stream was the line, then a line feed alone or after a
    carriage return, then what is left of the stream.  Only the last line of
    a stream can lack its line feed, and then it is returned as it is.
    Nothing but the pending bytes of the connection changes. *)
Theorem readLine_sound (c c' : Conn) (line : string) :
  readLine c = (c', inl line) ->
  ~ contains LF line /\
  c' = with_pending c (pending (r c')) /\
  exists eol,
    pending (r c) = line +:+ eol +:+ pending (r c') /\
    (line_end eol \/ (eol = "" /\ pending (r c') = "" /\ line <> "")).
Proof.
  unfold readLine. destruct (pending (r c)) as [|x s] eqn:E; [discriminate|].
  destruct (cut_newline (String x s)) as [l [rest|]] eqn:Ec; intros [= <- <-].
  - split; [|split; [done|]].
    + intros H. apply drop_last_CR_contains in H. by apply cut_newline_no_LF in Ec.
    + apply cut_newline_Some in Ec as [Ec _]. simpl pending.
      destruct (drop_last_CR_spec l) as [El | El].
      * exists (String LF ""). split; [|left; by left]. by rewrite <- El, Ec.
      * exists CRLF. split; [|left; by right].
        rewrite Ec. rewrite El at 1. by rewrite append_assoc.
  - split; [by apply cut_newline_no_LF in Ec|]. split; [done|].
    apply cut_newline_None in Ec as ->. exists "". simpl pending.
    split; [by rewrite append_nil_r|]. right. done.
Qed.

Lemma readLine_sound_witness :
  ~ contains LF "Job-UUID: 7" /\
  with_pending (peer "Job-UUID: 7") "" =
    with_pending (peer "Job-UUID: 7") (pending (r (with_pending (peer "Job-UUID: 7") ""))) /\
  exists eol,
    pending (r (peer "Job-UUID: 7")) =
      "Job-UUID: 7" +:+ eol +:+ pending (r (with_pending (peer "Job-UUID: 7") "")) /\
    (line_end eol \/
     (eol = "" /\
      pending (r (with_pending (peer "Job-UUID: 7") "")) = "" /\ "Job-UUID: 7" <> "")).
Proof.
  apply (readLine_sound (peer "Job-UUID: 7") (with_pending (peer "Job-UUID: 7") "")
           "Job-UUID: 7").
  reflexivity.
Defined.

Lemma Read_headers_break_typed (fuel : nat) (c c1 : Conn) (resp resp1 : Response)
    (n n1 : Z) :
  Read_headers fuel c resp n = Some (hdr_break c1 resp1 n1) ->
  internal.ContentType resp1 <> "".
Proof.
  revert c resp n. induction fuel as [|fuel IH]; intros c resp n; [discriminate|].
  simpl. destruct (readLine c) as [c' [line|err]]; [|discriminate].
  destruct (len line =? 0).
  { destruct (String.eqb_spec (internal.ContentType resp) ""); [apply IH|].
    intros H. by inversion H; subst. }
  destruct (IndexByte line ":" <=? 0); [discriminate|].
  destruct (store_header _ _ resp n) as [[resp' n']|err]; [apply IH | discriminate].
Qed.

(** X3.  [Read] only takes bytes off the front of the stream: whatever it
    returns, the connection afterwards differs from the one before in its
    pending bytes alone (nothing is written), and those are a tail of the
    earlier ones.  When it succeeds, the bytes taken are a non-empty header
    part followed by exactly the body it returns. *)
Theorem Read_takes_prefix (c c' : Conn) (resp : Response) (err : option error) :
  Read c = Some (c', resp, err) ->
  c' = with_pending c (pending (r c')) /\
  w c' = w c /\
  exists taken,
    pending (r c) = taken +:+ pending (r c') /\
    (err = None -> exists hdr, taken = hdr +:+ internal.Body resp /\ hdr <> "").
Proof.
  unfold Read.
  destruct (Read_headers (Read_fuel c) c Response_zero 0) as [h|] eqn:E; [|discriminate].
  pose proof (Read_headers_conn _ _ _ _ _ E) as (Hc & taken & Ht).
  assert (Hw : forall c0, c0 = with_pending c (pending (r c0)) -> w c0 = w c)
    by (by intros c0 ->).
  destruct h as [c1 resp1 n1|c1 resp1 err1]; cbn [headers_conn] in *.
  - pose proof (Read_headers_Body _ _ _ _ _ _ _ E) as Hb. simpl in Hb.
    pose proof (Read_headers_break_shrinks _ _ _ _ _ _ _ E) as Hlt.
    assert (Htaken : taken <> "").
    { intros ->. rewrite append_nil_l in Ht. rewrite Ht in Hlt. lia. }
    change (Some (hdr_break c1 resp1 n1) ≫= Read_body)
      with (Read_body (hdr_break c1 resp1 n1)).
    rewrite Read_body_break. destruct (n1 >? 0).
    + destruct (n1 <=? maxAlloc); [|discriminate].
      unfold ReadFull. destruct (n1 <=? len (pending (r c1))).
      * intros H; inversion H; subst; clear H. simpl. split; [by rewrite Hc|]. split; [by rewrite Hc|].
        exists (taken +:+ take (Z.to_nat n1) (pending (r c1))). split.
        { by rewrite append_assoc, take_drop. }
        intros _. by exists taken.
      * intros H; inversion H; subst; clear H. simpl. split; [by rewrite Hc|]. split; [by rewrite Hc|].
        exists (pending (r c)). split; [by rewrite append_nil_r | done].
    + intros H; inversion H; subst; clear H. split; [done|]. split; [by apply Hw|].
      exists taken. split; [done|]. intros _. exists taken. by rewrite Hb, append_nil_r.
  - intros H; inversion H; subst; clear H. split; [done|]. split; [by apply Hw|].
    exists taken. split; [done | done].
Qed.

Lemma Read_takes_prefix_witness :
  exists taken,
    pending (r (peer ("Content-Type: api/response" +:+ CRLF +:+ "Content-Length: 2" +:+ CRLF
                      +:+ CRLF +:+ "okrest"))) = taken +:+ pending (r (peer "rest")) /\
    (@None error = None ->
     exists hdr, taken = hdr +:+ internal.Body (mkResponse "api/response" "" "" "ok") /\
                 hdr <> "").
Proof.
  apply (Read_takes_prefix
           (peer ("Content-Type: api/response" +:+ CRLF +:+ "Content-Length: 2" +:+ CRLF
                  +:+ CRLF +:+ "okrest"))
           (peer "rest") (mkResponse "api/response" "" "" "ok") None).
  reflexivity.
Defined.

(** X4.  A response that [Read] returns without error has a content type:
    the header loop ends only at a blank line read when the content type is
    set. *)
Theorem Read_success_has_content_type (c c' : Conn) (resp : Response) :
  Read c = Some (c', resp, None) -> internal.ContentType resp <> "".
Proof.
  unfold Read.
  destruct (Read_headers (Read_fuel c) c Response_zero 0) as [[c1 resp1 n1|c1 resp1 e]|] eqn:E;
    [|discriminate..].
  apply Read_headers_break_typed in E.
  change (Some (hdr_break c1 resp1 n1) ≫= Read_body) with (Read_body (hdr_break c1 resp1 n1)).
  rewrite Read_body_break.
  destruct (n1 >? 0); [|by intros [= _ <-]].
  destruct (n1 <=? maxAlloc); [|discriminate].
  destruct (ReadFull c1 n1) as [c2 [body|e]]; [|discriminate].
  by intros [= _ <-].
Qed.

Lemma Read_success_has_content_type_witness :
  internal.ContentType (mkResponse "command/reply" "+OK" "" "") <> "".
Proof.
  apply (Read_success_has_content_type
           (peer ("Content-Type: command/reply" +:+ CRLF +:+ "Reply-Text: +OK" +:+ CRLF
                  +:+ CRLF))
           (peer "")).
  reflexivity.
Defined.

(** ** Frames *)

Lemma trimLeft_id (b : string) : ~ starts_blank b -> trimLeft b = b.
Proof.
  destruct b as [|x b]; [done|]. intros H. simpl.
  destruct (Ascii.eqb_spec x SP) as [->|]; [exfalso; apply H; by eexists _, _; eauto|].
  destruct (Ascii.eqb_spec x TAB) as [->|]; [exfalso; apply H; by eexists _, _; eauto|].
  done.
Qed.

Lemma absent_by_search (c : ascii) (s : string) : IndexByte s c = -1 -> ~ contains c s.
Proof. intros E H. apply IndexByte_present in H. lia. Qed.

Lemma Read_headers_S (fuel : nat) (c : Conn) (resp : Response) (n : Z) :
  Read_headers (S fuel) c resp n =
  match readLine c with
  | (c', inr err) => Some (hdr_return c' resp err)
  | (c', inl line) =>
      if len line =? 0 then
        if String.eqb (internal.ContentType resp) "" then Read_headers fuel c' resp n
        else Some (hdr_break c' resp n)
      else
        let idx := IndexByte line ":"%char in
        if idx <=? 0 then
          Some (hdr_return c' resp (fmt_Errorf "malformed header line: %q" (arg_q line)))
        else
          match store_header (take (Z.to_nat idx) line)
                  (trimLeft (drop (Z.to_nat (idx + 1)) line)) resp n with
          | inl (resp', n') => Read_headers fuel c' resp' n'
          | inr err => Some (hdr_return c' resp err)
          end
  end.
Proof. reflexivity. Qed.

Lemma readLine_crlf (c : Conn) (line rest : string) :
  ~ contains LF line -> pending (r c) = line +:+ CRLF +:+ rest ->
  readLine c = (with_pending c rest, inl line).
Proof.
  intros Hline Hc. unfold readLine. rewrite Hc.
  replace (line +:+ CRLF +:+ rest) with ((line +:+ String CR "") +:+ String LF rest)
    by (by rewrite append_assoc).
  rewrite cut_newline_line.
  - rewrite drop_last_CR_app. by destruct line.
  - rewrite contains_app, contains_cons. intros [? | [? | H]]; [done | done |].
    by apply contains_nil in H.
Qed.

(** One turn of the header loop on a line [name: value]. *)
Lemma Read_headers_line (fuel : nat) (c : Conn) (name value rest : string)
    (resp : Response) (n : Z) :
  wire_name name -> ~ contains LF value ->
  pending (r c) = header_line (name, value) +:+ rest ->
  Read_headers (S fuel) c resp n =
  match store_header name (trimLeft value) resp n with
  | inl (resp', n') => Read_headers fuel (with_pending c rest) resp' n'
  | inr err => Some (hdr_return (with_pending c rest) resp err)
  end.
Proof.
  intros (Hne & Hcolon & Hlf) Hv Hc.
  assert (Hline : readLine c = (with_pending c rest, inl (name +:+ ": " +:+ value))).
  { apply readLine_crlf.
    - rewrite !contains_app. intros [? | [H | ?]]; [done | | done].
      revert H. by apply absent_by_search.
    - rewrite Hc. unfold header_line. simpl fst. simpl snd. by rewrite !append_assoc. }
  rewrite Read_headers_S, Hline.
  rewrite len_nonempty by (by destruct name).
  change (name +:+ ": " +:+ value) with (name +:+ String ":" (String " " value)).
  cbv zeta.
  rewrite (IndexByte_first _ _ _ Hcolon).
  assert (0 < len name) by (destruct name; [done | unfold len; simpl; lia]).
  destruct (Z.leb_spec (len name) 0); [lia|].
  unfold len. rewrite Nat2Z.id.
  replace (Z.to_nat (Z.of_nat (String.length name) + 1)) with (S (String.length name)) by lia.
  rewrite take_app.
  replace (drop (S (String.length name)) (name +:+ String ":" (String " " value)))
    with (String " " value).
  - done.
  - clear. induction name as [|x name IH]; [done|]. by rewrite append_cons.
Qed.

Lemma Read_headers_lines (fuel : nat) (c : Conn) (hs : list (string * string))
    (rest : string) (resp resp' : Response) (n n' : Z) :
  Forall wire_header hs ->
  store_headers hs resp n = inl (resp', n') ->
  pending (r c) = header_lines hs +:+ rest ->
  Read_headers (length hs + fuel) c resp n = Read_headers fuel (with_pending c rest) resp' n'.
Proof.
  revert c resp n. induction hs as [|[name value] hs IH]; intros c resp n Hall Hs Hc.
  - simpl in *. injection Hs as <- <-. rewrite append_nil_l in Hc.
    by rewrite <- Hc, with_pending_id.
  - inversion Hall as [|? ? [Hn [Hv Hb]] Hrest]; subst. simpl in Hs, Hn, Hv, Hb.
    change (length ((name, value) :: hs) + fuel)%nat with (S (length hs + fuel)).
    rewrite (Read_headers_line _ c name value (header_lines hs +:+ rest)); [|done..|].
    + rewrite (trimLeft_id _ Hb).
      destruct (store_header name value resp n) as [[resp1 n1]|err]; [|discriminate].
      by rewrite (IH (with_pending c (header_lines hs +:+ rest)) resp1 n1).
    + rewrite Hc. simpl header_lines. by rewrite append_assoc.
Qed.

Lemma Read_headers_agree (f1 f2 : nat) (c : Conn) (resp : Response) (n : Z) (h1 h2 : headers) :
  Read_headers f1 c resp n = Some h1 -> Read_headers f2 c resp n = Some h2 -> h1 = h2.
Proof.
  intros H1 H2.
  apply (Read_headers_mono _ (Nat.max f1 f2)) in H1; [|lia].
  apply (Read_headers_mono _ (Nat.max f1 f2)) in H2; [|lia]. congruence.
Qed.

(** The header loop on a whole header block and its blank line. *)
Lemma Read_headers_block (c : Conn) (hs : list (string * string)) (payload : string)
    (resp : Response) (N : Z) :
  Forall wire_header hs ->
  store_headers hs Response_zero 0 = inl (resp, N) ->
  internal.ContentType resp <> "" ->
  pending (r c) = header_lines hs +:+ CRLF +:+ payload ->
  Read_headers (Read_fuel c) c Response_zero 0 =
  Some (hdr_break (with_pending c payload) resp N).
Proof.
  intros Hall Hs Hct Hc.
  assert (H : Read_headers (length hs + 1) c Response_zero 0 =
              Some (hdr_break (with_pending c payload) resp N)).
  { rewrite (Read_headers_lines 1 c hs (CRLF +:+ payload) _ _ _ _ Hall Hs Hc).
    rewrite Read_headers_S.
    rewrite (readLine_blank _ CRLF payload); [|by right|done].
    change (len "" =? 0) with true. cbv iota.
    by destruct (String.eqb_spec (internal.ContentType resp) ""). }
  destruct (Read_headers_enough (Read_fuel c) c Response_zero 0) as [h Hh];
    [unfold Read_fuel; lia|].
  by rewrite Hh, (Read_headers_agree _ _ _ _ _ _ _ Hh H).
Qed.

Lemma digits_all (s : string) (acc v : Z) (c : ascii) :
  digits s acc = Some v -> contains c s -> is_Some (digit c).
Proof.
  revert acc. induction s as [|x s IH]; intros acc Hd Hc; [by apply contains_nil in Hc|].
  simpl in Hd. destruct (digit x) as [d|] eqn:Ex; [|discriminate].
  apply contains_cons in Hc as [<- | Hc]; [by eexists | by eapply IH].
Qed.

(** A number that [Atoi] accepts holds no line feed and starts with no
    blank. *)
Lemma Atoi_wire_value (s : string) (v : Z) : Atoi s = Some v -> wire_value s.
Proof.
  unfold Atoi. destruct s as [|x s]; [discriminate|].
  assert (Hd : forall t a, is_Some (digits t 0) -> contains a t -> is_Some (digit a)).
  { intros t a [u Hu] Ha. by eapply digits_all. }
  assert (Hgo : forall t, (x = "-"%char \/ x = "+"%char) /\ t = s \/ t = String x s ->
                          is_Some (digits t 0) -> wire_value (String x s)).
  { intros t Ht Hs. split.
    - intros Hc. destruct Ht as [[Hx ->] | ->].
      + apply contains_cons in Hc as [E | Hc];
          [by destruct Hx as [-> | ->]|].
        by destruct (Hd _ _ Hs Hc).
      + by destruct (Hd _ _ Hs Hc).
    - intros (a & b & [= <- <-] & Hab). destruct Ht as [[Hx ->] | ->].
      + by destruct Hx as [-> | ->], Hab.
      + assert (Ha : is_Some (digit x)) by (apply (Hd _ _ Hs); apply contains_cons; by left).
        by destruct Hab as [-> | ->], Ha. }
  destruct (Ascii.eqb_spec x "-") as [->|].
  { destruct s as [|y s]; [discriminate|].
    destruct (digits (String y s) 0) eqn:E; [|discriminate].
    intros _. apply (Hgo (String y s)); [by left; split; [left|] | by eexists]. }
  destruct (Ascii.eqb_spec x "+") as [->|].
  { destruct s as [|y s]; [discriminate|].
    destruct (digits (String y s) 0) eqn:E; [|discriminate].
    intros _. apply (Hgo (String y s)); [by left; split; [right|] | by eexists]. }
  destruct (digits (String x s) 0) eqn:E; [|discriminate].
  intros _. apply (Hgo (String x s)); [by right | by eexists].
Qed.

(** A whole frame: header block, blank line, and a body of the declared
    length that [make] can hold. *)
Lemma Read_block_body (c : Conn) (hs : list (string * string)) (body rest : string)
    (resp : Response) :
  Forall wire_header hs ->
  store_headers hs Response_zero 0 = inl (resp, len body) ->
  internal.ContentType resp <> "" ->
  len body <= maxAlloc ->
  pending (r c) = header_lines hs +:+ CRLF +:+ body +:+ rest ->
  Read c = Some (with_pending c rest,
                 mkResponse (internal.ContentType resp) (Text resp) (JobUUID resp) body,
                 None).
Proof.
  intros Hall Hs Hct Hmax Hc.
  pose proof (Read_headers_block c hs (body +:+ rest) resp (len body) Hall Hs Hct Hc) as Hh.
  pose proof (Read_headers_Body _ _ _ _ _ _ _ Hh) as Hb. simpl in Hb.
  unfold Read. rewrite Hh.
  change (Some (hdr_break (with_pending c (body +:+ rest)) resp (len body)) ≫= Read_body)
    with (Read_body (hdr_break (with_pending c (body +:+ rest)) resp (len body))).
  rewrite Read_body_break. unfold ReadFull. simpl pending.
  destruct (Z.gtb_spec (len body) 0) as [Hpos|Hzero].
  - destruct (Z.leb_spec (len body) maxAlloc); [|lia].
    assert (Hle : len body <= len (body +:+ rest))
      by (unfold len; rewrite length_append; lia).
    destruct (Z.leb_spec (len body) (len (body +:+ rest))); [|lia].
    unfold len. rewrite Nat2Z.id, take_app, drop_app. done.
  - destruct body as [|x body]; [|unfold len in Hzero; simpl in Hzero; lia].
    rewrite append_nil_l. destruct resp as [ct text job b]. simpl in *. by subst b.
Qed.

(** A header block that declares more than [make] gives. *)
Lemma Read_block_panics (c : Conn) (hs : list (string * string)) (payload : string)
    (resp : Response) (N : Z) :
  Forall wire_header hs ->
  store_headers hs Response_zero 0 = inl (resp, N) ->
  internal.ContentType resp <> "" ->
  maxAlloc < N ->
  pending (r c) = header_lines hs +:+ CRLF +:+ payload ->
  Read c = None.
Proof.
  intros Hall Hs Hct Hmax Hc. apply Read_None.
  exists (with_pending c payload), resp, N. split; [|done].
  by apply Read_headers_block with (hs := hs).
Qed.

(** ** Bodies of declared length *)


(** A declared length that [make] refuses: [Read] panics, whatever the
    stream holds. *)
Example Read_length_beyond_make :
  Read (peer ("Content-Type: api/response" +:+ CRLF +:+
              "Content-Length: 9223372036854775807" +:+ CRLF +:+ CRLF +:+ "hel")) = None.
Proof. reflexivity. Qed.



(** X5.  A response whose fields fit on a header line (no line feed, no
    leading blank, a content type that is not empty) and whose body [make]
    can hold, written as a frame with its content length in a form [Atoi]
    reads, is read back as it was, and the bytes after the frame stay in the
    stream for the next [Read].  With a longer body, [Read] panics. *)
Theorem Read_frame_round_trip (c : Conn) (resp : Response) (n rest : string) :
  wire_value (internal.ContentType resp) -> internal.ContentType resp <> "" ->
  wire_value (Text resp) -> wire_value (JobUUID resp) ->
  Atoi n = Some (len (internal.Body resp)) ->
  (len (internal.Body resp) <= maxAlloc ->
   Read (with_pending c (frame resp n +:+ rest)) = Some (with_pending c rest, resp, None)) /\
  (maxAlloc < len (internal.Body resp) ->
   Read (with_pending c (frame resp n +:+ rest)) = None).
Proof.
  intros Hct Hne Htext Hjob Hn. destruct resp as [ct text job body]. simpl in *.
  assert (Hall : Forall wire_header
            [("Content-Type", ct); ("Reply-Text", text); ("Job-UUID", job);
             ("Content-Length", n)]).
  { repeat constructor; simpl; try done; try (by apply absent_by_search);
      try apply Hct; try apply Htext; try apply Hjob;
      by apply (Atoi_wire_value _ _ Hn). }
  assert (Hs : store_headers
            [("Content-Type", ct); ("Reply-Text", text); ("Job-UUID", job);
             ("Content-Length", n)] Response_zero 0 =
          inl (mkResponse ct text job "", len body)).
  { simpl. unfold store_header at 1. simpl. by rewrite Hn. }
  assert (Hc : forall tail,
            pending (r (with_pending c (frame (mkResponse ct text job body) n +:+ rest))) =
            tail ->
            header_lines [("Content-Type", ct); ("Reply-Text", text); ("Job-UUID", job);
                          ("Content-Length", n)] +:+ CRLF +:+ body +:+ rest = tail).
  { intros tail <-. simpl pending. unfold frame. simpl internal.Body.
    simpl internal.ContentType. simpl Text. simpl JobUUID. by rewrite !append_assoc. }
  split; intros Hmax.
  - by rewrite (Read_block_body _ _ body rest _ Hall Hs Hne Hmax (eq_sym (Hc _ eq_refl))).
  - by apply (Read_block_panics _ _ (body +:+ rest) _ _ Hall Hs Hne Hmax
                (eq_sym (Hc _ eq_refl))).
Qed.

Lemma Read_frame_round_trip_witness :
  Read (with_pending (peer "")
          (frame (mkResponse "api/response" "" "7f3a" "-ERR no reply") "13" +:+
           "Content-Type: auth/request")) =
  Some (with_pending (peer "") "Content-Type: auth/request",
        mkResponse "api/response" "" "7f3a" "-ERR no reply", None).
Proof.
  apply (proj1 (Read_frame_round_trip (peer "")
                  (mkResponse "api/response" "" "7f3a" "-ERR no reply")
                  "13" "Content-Type: auth/request"
                  ltac:(split; [by apply absent_by_search
                               | by intros (a & b & [= <- <-] & [? | ?])])
                  ltac:(discriminate)
                  ltac:(split; [by apply absent_by_search | by intros (a & b & [=] & _)])
                  ltac:(split; [by apply absent_by_search
                               | by intros (a & b & [= <- <-] & [? | ?])])
                  eq_refl)).
  vm_compute. discriminate.
Defined.

(** X6.  A header that [Read] does not know is skipped: with or without it
    the loop goes on in the same state, and a frame reads the same. *)
Theorem Read_ignores_unknown_header (c : Conn) (name value rest : string) :
  wire_name name -> ~ contains LF value ->
  name ∉ ["Content-Type"; "Reply-Text"; "Job-UUID"; "Content-Length"] ->
  (forall fuel resp n,
      Read_headers (S fuel) (with_pending c (header_line (name, value) +:+ rest)) resp n =
      Read_headers fuel (with_pending c rest) resp n) /\
  Read (with_pending c (header_line (name, value) +:+ rest)) = Read (with_pending c rest).
Proof.
  intros Hname Hvalue Hnot.
  assert (Hstore : forall v resp n, store_header name v resp n = inl (resp, n)).
  { intros v resp n. unfold store_header.
    repeat match goal with
           | |- context [String.eqb name ?k] =>
               destruct (String.eqb_spec name k) as [->|_]; [exfalso; set_solver|]
           end.
    done. }
  assert (Hstep : forall fuel resp n,
    Read_headers (S fuel) (with_pending c (header_line (name, value) +:+ rest)) resp n =
    Read_headers fuel (with_pending c rest) resp n).
  { intros fuel resp n.
    rewrite (Read_headers_line fuel (with_pending c (header_line (name, value) +:+ rest))
               name value rest resp n Hname Hvalue eq_refl).
    by rewrite Hstore. }
  split; [done|]. unfold Read, Read_fuel. rewrite Hstep. f_equal.
  apply Read_headers_fuel; simpl; [|lia].
  unfold header_line. rewrite !length_append. simpl. lia.
Qed.

Lemma Read_ignores_unknown_header_witness :
  Read (with_pending (peer "")
          (header_line ("Event-Lock", "true") +:+
           "Content-Type: command/reply" +:+ CRLF +:+ CRLF)) =
  Read (with_pending (peer "") ("Content-Type: command/reply" +:+ CRLF +:+ CRLF)).
Proof.
  apply (Read_ignores_unknown_header (peer "") "Event-Lock" "true"
           ("Content-Type: command/reply" +:+ CRLF +:+ CRLF)).
  - split; [discriminate|]. split; by apply absent_by_search.
  - by apply absent_by_search.
  - apply (bool_decide_unpack _). by vm_compute.
Defined.

(** X7.  A frame that declares a content length of zero or less has no body:
    [Read] returns the response after the blank line and leaves every byte
    after it in the stream. *)
Theorem Read_nonpositive_length (c : Conn) (ct n payload : string) (N : Z) :
  wire_value ct -> ct <> "" -> Atoi n = Some N -> N <= 0 ->
  Read (with_pending c
          (header_lines [("Content-Type", ct); ("Content-Length", n)] +:+ CRLF +:+ payload)) =
  Some (with_pending c payload, mkResponse ct "" "" "", None).
Proof.
  intros Hct Hne Hn HN. unfold Read.
  rewrite (Read_headers_block _ [("Content-Type", ct); ("Content-Length", n)] payload
             (mkResponse ct "" "" "") N).
  - simpl. by destruct (Z.gtb_spec N 0); [lia|].
  - repeat constructor; simpl; try done; try (by apply absent_by_search);
      try apply Hct; by apply (Atoi_wire_value _ _ Hn).
  - simpl. unfold store_header at 1. simpl. by rewrite Hn.
  - done.
  - done.
Qed.

Lemma Read_nonpositive_length_witness :
  Read (with_pending (peer "")
          (header_lines [("Content-Type", "api/response"); ("Content-Length", "-5")]
           +:+ CRLF +:+ "hello")) =
  Some (with_pending (peer "") "hello", mkResponse "api/response" "" "" "", None).
Proof.
  apply (Read_nonpositive_length (peer "") "api/response" "-5" "hello" (-5)).
  - split; [by apply absent_by_search | by intros (a & b & [= <- <-] & [? | ?])].
  - discriminate.
  - reflexivity.
  - lia.
Defined.

(** X8.  Two more lines end [Read] with an error: a line that starts with
    [':'], so that the header has no name, and a [Content-Length] whose
    value, less its leading blanks, is not a decimal integer.  The response
    read so far comes back with the error. *)
Theorem Read_rejects_header (c : Conn) (fuel : nat) (resp : Response) (n : Z) :
  (forall c' x,
      readLine c = (c', inl (String ":" x)) ->
      Read_headers (S fuel) c resp n =
      Some (hdr_return c' resp
              (fmt_Errorf "malformed header line: %q" (arg_q (String ":" x))))) /\
  (forall raw rest,
      ~ contains LF raw -> Atoi (trimLeft raw) = None ->
      pending (r c) = header_line ("Content-Length", raw) +:+ rest ->
      Read_headers (S fuel) c resp n =
      Some (hdr_return (with_pending c rest) resp
              (fmt_Errorf "malformed content-length: %q" (arg_q (trimLeft raw))))).
Proof.
  split.
  - intros c' x H. rewrite Read_headers_S, H. done.
  - intros raw rest Hraw Hn Hc.
    rewrite (Read_headers_line fuel c "Content-Length" raw rest resp n); [|..|done].
    + unfold store_header. simpl. by rewrite Hn.
    + split; [done|]. split; by apply absent_by_search.
    + done.
Qed.

Lemma Read_rejects_header_witness :
  Read_headers 1 (peer ("Content-Length: 5 " +:+ CRLF)) Response_zero 0 =
  Some (hdr_return (with_pending (peer ("Content-Length: 5 " +:+ CRLF)) "") Response_zero
          (fmt_Errorf "malformed content-length: %q" (arg_q "5 "))).
Proof.
  apply (proj2 (Read_rejects_header (peer ("Content-Length: 5 " +:+ CRLF)) 0 Response_zero 0)
           "5 " "").
  - by apply absent_by_search.
  - reflexivity.
  - reflexivity.
Defined.

(** ** Commands and the handshake *)

Lemma Read_keeps_writer (c c' : Conn) (resp : Response) (err : option error) :
  Read c = Some (c', resp, err) -> w c' = w c.
Proof. intros H. apply Read_conn in H as [Hc _]. by rewrite Hc. Qed.

(** X9.  [Send] writes the command and a blank line, once, and then reads one
    response.  An empty command writes nothing, yet a response is still read.
    If the write fails nothing is read and the connection is as before.  With
    any error the response returned is the zero response. *)
Theorem Send_composes (c c' : Conn) (cmd : string) (resp : Response) (err : option error) :
  internal.Send c cmd = Some (c', resp, err) ->
  (err <> None -> resp = Response_zero) /\
  (cmd = "" -> sent (w c') = sent (w c) /\
               exists resp0 err0, Read c = Some (c', resp0, err0)) /\
  (cmd <> "" -> forall e, broken (w c) = Some e ->
   c' = c /\
   err = Some (fmt_Errorf "send: %w" (arg_w (fmt_Errorf "send: %w" (arg_w e))))) /\
  (cmd <> "" -> broken (w c) = None ->
   sent (w c') = sent (w c) +:+ cmd +:+ String LF (String LF "") /\
   exists resp0 err0,
     Read (with_sent c (sent (w c) +:+ cmd +:+ String LF (String LF ""))) =
       Some (c', resp0, err0) /\
     (err0 = None -> resp = resp0 /\ err = None) /\
     (forall e0, err0 = Some e0 -> err = Some (fmt_Errorf "read: %w" (arg_w e0)))).
Proof.
  unfold internal.Send, Write. intros H. split; [|split; [|split]].
  - destruct (String.eqb cmd ""); [|destruct (broken (w c))];
      repeat match type of H with
             | context [Read ?x] => destruct (Read x) as [[[c2 resp2] [e2|]]|]
             end; inversion H; subst; done.
  - intros ->. simpl in H.
    destruct (Read c) as [[[c2 resp2] [e2|]]|] eqn:E; inversion H; subst.
    + split; [by rewrite (Read_keeps_writer _ _ _ _ E) | by eexists _, _].
    + split; [by rewrite (Read_keeps_writer _ _ _ _ E) | by eexists _, _].
  - intros Hne e He. destruct (String.eqb_spec cmd ""); [done|].
    rewrite He in H. by inversion H.
  - intros Hne Hw. destruct (String.eqb_spec cmd ""); [done|].
    rewrite Hw in H.
    destruct (Read (with_sent c _)) as [[[c2 resp2] [e2|]]|] eqn:E; inversion H; subst.
    + split; [by rewrite (Read_keeps_writer _ _ _ _ E)|].
      eexists _, _. split; [done|]. split; [done|]. by intros e0 [= <-].
    + split; [by rewrite (Read_keeps_writer _ _ _ _ E)|].
      eexists _, _. split; [done|]. split; [done|]. done.
Qed.

Lemma Send_composes_witness :
  sent (w (mkConn (mkReader "" io_EOF) (mkWriter ("api status" +:+ String LF (String LF ""))
                                         None) 0)) =
  sent (w (peer ("Content-Type: api/response" +:+ CRLF +:+ CRLF))) +:+ "api status"
  +:+ String LF (String LF "") /\
  exists resp0 err0,
    Read (with_sent (peer ("Content-Type: api/response" +:+ CRLF +:+ CRLF))
            (sent (w (peer ("Content-Type: api/response" +:+ CRLF +:+ CRLF))) +:+
             "api status" +:+ String LF (String LF ""))) =
      Some (mkConn (mkReader "" io_EOF)
              (mkWriter ("api status" +:+ String LF (String LF "")) None) 0, resp0, err0) /\
    (err0 = None -> mkResponse "api/response" "" "" "" = resp0 /\ @None error = None) /\
    (forall e0, err0 = Some e0 -> @None error = Some (fmt_Errorf "read: %w" (arg_w e0))).
Proof.
  apply (proj2 (proj2 (proj2 (Send_composes
    (peer ("Content-Type: api/response" +:+ CRLF +:+ CRLF))
    (mkConn (mkReader "" io_EOF) (mkWriter ("api status" +:+ String LF (String LF "")) None) 0)
    "api status" (mkResponse "api/response" "" "" "") None eq_refl)))).
  - discriminate.
  - reflexivity.
Defined.

(** X10.  The handshake writes at most once, and then exactly the command
    [auth <password>] with its blank line, and only after it has read an auth
    request.  It succeeds only if the reply to that command is a command
    reply whose text starts with ["+OK"]. *)
Theorem auth_sound (c c' : Conn) (password : string) (err : option error) :
  auth c password = Some (c', err) ->
  (sent (w c') = sent (w c) \/
   sent (w c') = sent (w c) +:+ "auth " +:+ password +:+ String LF (String LF "") /\
   exists c1 resp,
     Read c = Some (c1, resp, None) /\ internal.ContentType resp = ctAuth) /\
  (err = None ->
   exists c1 resp reply,
     Read c = Some (c1, resp, None) /\ internal.ContentType resp = ctAuth /\
     Read (with_sent c1 (sent (w c) +:+ "auth " +:+ password +:+ String LF (String LF ""))) =
       Some (c', reply, None) /\
     internal.ContentType reply = ctCommandReply /\ starts_with "+OK" (Text reply)).
Proof.
  unfold auth.
  destruct (Read c) as [[[c1 resp] [e1|]]|] eqn:E1; [| |discriminate].
  { intros H; inversion H; subst. split; [|done]. left.
    by rewrite (Read_keeps_writer _ _ _ _ E1). }
  pose proof (Read_keeps_writer _ _ _ _ E1) as Hw1.
  destruct (String.eqb (internal.ContentType resp) ctReject).
  { intros H; inversion H; subst. split; [|done]. left. by rewrite Hw1. }
  destruct (String.eqb (internal.ContentType resp) ctDisconnect).
  { intros H; inversion H; subst. split; [|done]. left. by rewrite Hw1. }
  destruct (String.eqb_spec (internal.ContentType resp) ctAuth) as [Hct|];
    [|intros H; inversion H; subst; split; [|done]; left; by rewrite Hw1].
  unfold internal.Send, Write.
  change (String.eqb ("auth " +:+ password) "") with false. cbv iota.
  destruct (broken (w c1)) as [e|] eqn:Hb.
  { intros H; inversion H; subst. split; [|done]. left. by rewrite Hw1. }
  rewrite Hw1.
  destruct (Read (with_sent c1 _)) as [[[c2 reply] [e2|]]|] eqn:E2; [| |discriminate].
  { intros H; inversion H; subst. split; [|done]. right.
    split; [by rewrite (Read_keeps_writer _ _ _ _ E2) | by eexists _, _]. }
  pose proof (Read_keeps_writer _ _ _ _ E2) as Hw2.
  destruct (String.eqb_spec (internal.ContentType reply) ctCommandReply) as [Hr|]; simpl.
  - destruct (HasPrefix (Text reply) "+OK") eqn:Hp; simpl;
      intros H; inversion H; subst; (split; [right; split; [by rewrite Hw2 | by eexists _, _]|]);
      [|done].
    intros _. exists c1, resp, reply. repeat split; try done. by apply HasPrefix_true.
  - intros H; inversion H; subst. split; [|done]. right.
    split; [by rewrite Hw2 | by eexists _, _].
Qed.

Lemma auth_sound_witness :
  exists c1 resp reply,
    Read (peer ("Content-Type: auth/request" +:+ CRLF +:+ CRLF +:+
                "Content-Type: command/reply" +:+ CRLF +:+
                "Reply-Text: +OK accepted" +:+ CRLF +:+ CRLF)) = Some (c1, resp, None) /\
    internal.ContentType resp = ctAuth /\
    Read (with_sent c1
            (sent (w (peer ("Content-Type: auth/request" +:+ CRLF +:+ CRLF +:+
                            "Content-Type: command/reply" +:+ CRLF +:+
                            "Reply-Text: +OK accepted" +:+ CRLF +:+ CRLF))) +:+
             "auth " +:+ "ClueCon" +:+ String LF (String LF ""))) =
      Some (mkConn (mkReader "" io_EOF)
              (mkWriter ("auth ClueCon" +:+ String LF (String LF "")) None) 0, reply, None) /\
    internal.ContentType reply = ctCommandReply /\ starts_with "+OK" (Text reply).
Proof.
  apply (proj2 (auth_sound
    (peer ("Content-Type: auth/request" +:+ CRLF +:+ CRLF +:+
           "Content-Type: command/reply" +:+ CRLF +:+
           "Reply-Text: +OK accepted" +:+ CRLF +:+ CRLF))
    (mkConn (mkReader "" io_EOF) (mkWriter ("auth ClueCon" +:+ String LF (String LF "")) None) 0)
    "ClueCon" None eq_refl)).
  reflexivity.
Defined.

(** ** Subscribers and their channels *)

Lemma lower_a (c : ascii) : lower c = "a"%char -> c = "a"%char \/ c = "A"%char.
Proof.
  destruct c as [[] [] [] [] [] [] [] []]; vm_compute; intros H;
    try discriminate H; auto.
Qed.

Lemma lower_l (c : ascii) : lower c = "l"%char -> c = "l"%char \/ c = "L"%char.
Proof.
  destruct c as [[] [] [] [] [] [] [] []]; vm_compute; intros H;
    try discriminate H; auto.
Qed.

Lemma wildcard_name_spellings (name : string) :
  wildcard_name name <->
  name ∈ [""; "*"; "all"; "alL"; "aLl"; "aLL"; "All"; "AlL"; "ALl"; "ALL"].
Proof.
  unfold wildcard_name. split.
  - intros [-> | [-> | H]]; [set_solver..|].
    destruct name as [|a [|b [|d [|? ?]]]]; simpl in H;
      try (exfalso; revert H; rewrite ?andb_false_r; discriminate).
    rewrite !andb_true_iff, !Ascii.eqb_eq in H.
    destruct H as (Ha & Hb & Hd & _).
    change (lower "a") with "a"%char in Ha. change (lower "l") with "l"%char in Hb, Hd.
    apply lower_a in Ha. apply lower_l in Hb. apply lower_l in Hd.
    destruct Ha as [-> | ->], Hb as [-> | ->], Hd as [-> | ->]; set_solver.
  - rewrite !elem_of_cons, elem_of_nil.
    intros [-> | [-> | [-> | [-> | [-> | [-> | [-> | [-> | [-> | [-> | []]]]]]]]]]];
      (by left) || (by right; left) || (by right; right).
Qed.

Lemma wildcard_name_decide (name : string) : {wildcard_name name} + {~ wildcard_name name}.
Proof.
  destruct (String.eqb name "" || String.eqb name "*" || EqualFold name "all") eqn:E.
  - left. by apply wildcard_name_dec.
  - right. intros H. apply wildcard_name_dec in H. congruence.
Qed.

Lemma Name_named (x : string) : Name (named x) = x.
Proof.
  unfold Name, named, Get. rewrite lookup_singleton_ne by done. simpl.
  by rewrite lookup_singleton_eq.
Qed.

(** X11.  The subscriber that [newSubscriber] makes stores no names, and so
    takes every event, exactly when the list of names is empty or holds the
    empty name, ["*"], or one of the eight ways to spell ["all"] in upper and
    lower case; with any other list there are events it does not take. *)
Theorem wildcard_spellings (ch : nat) (events : list string) (s : subscriber) :
  newSubscriber (Some ch) events = Some s ->
  (Names s = None <->
   events = [] \/
   exists name, name ∈ events /\
     name ∈ [""; "*"; "all"; "alL"; "aLl"; "aLL"; "All"; "AlL"; "ALl"; "ALL"]) /\
  (Names s = None <-> forall e, takes s e = true).
Proof.
  unfold newSubscriber. destruct events as [|name events].
  { intros [= <-]. simpl. split; split; try done. by left. }
  destruct (Z.of_nat (length (name :: events)) =? 0) eqn:E; [done|]. clear E.
  intros H.
  assert (s = mkSubscriber (newSubscriber_names (name :: events) ∅) ch) as ->
    by congruence.
  clear H. cbn [Names].
  destruct (Forall_Exists_dec (fun x => ~ wildcard_name x) wildcard_name
              (fun x => match wildcard_name_decide x with
                        | left H => right H
                        | right H => left H
                        end) (name :: events)) as [Hall | Hex].
  - rewrite (newSubscriber_names_filter _ _ Hall). split; split; try done.
    + intros [? | (x & Hx & Hsp)]; [done|]. exfalso.
      rewrite Forall_forall in Hall. apply (Hall x Hx). by apply wildcard_name_spellings.
    + intros Htakes. exfalso.
      set (names := list_to_set (strip_custom <$> name :: events) ∪ ∅ : gset string) in *.
      specialize (Htakes (named (fresh names))).
      unfold takes, Handle, has_Name, len_Names in Htakes. simpl in Htakes.
      rewrite Name_named in Htakes.
      rewrite bool_decide_eq_false_2 in Htakes by apply is_fresh.
      assert (Hin : strip_custom name ∈ names) by (unfold names; set_solver).
      assert (Hsize : size names <> 0%nat).
      { intros Hz. apply size_empty_inv in Hz. set_solver. }
      destruct (Z.eqb_spec (Z.of_nat (size names)) 0); [lia | done].
  - rewrite (newSubscriber_names_wildcard _ _ Hex). split; split; try done.
    intros _. right. apply Exists_exists in Hex as (x & Hx & Hw). exists x.
    split; [done | by apply wildcard_name_spellings].
Qed.

Lemma wildcard_spellings_witness :
  (Names (mkSubscriber None 3) = None <->
   ["HEARTBEAT"; "aLL"] = [] \/
   exists name, name ∈ ["HEARTBEAT"; "aLL"] /\
     name ∈ [""; "*"; "all"; "alL"; "aLl"; "aLL"; "All"; "AlL"; "ALl"; "ALL"]) /\
  (Names (mkSubscriber None 3) = None <-> forall e, takes (mkSubscriber None 3) e = true).
Proof.
  apply (wildcard_spellings 3 ["HEARTBEAT"; "aLL"] (mkSubscriber None 3)).
  reflexivity.
Defined.

(** X12.  The filter of a subscriber is a set: two lists of names with the
    same members, in whatever order and however often repeated, give the same
    subscriber. *)
Theorem newSubscriber_set (send : option nat) (events events' : list string) :
  (forall name, name ∈ events <-> name ∈ events') ->
  newSubscriber send events = newSubscriber send events'.
Proof.
  intros Hsame. unfold newSubscriber. destruct send as [ch|]; [|done].
  destruct events as [|name events], events' as [|name' events']; [done| | |].
  { exfalso. by apply (not_elem_of_nil name'), Hsame; left. }
  { exfalso. by apply (not_elem_of_nil name), Hsame; left. }
  change (Z.of_nat (length (name :: events)) =? 0) with false.
  change (Z.of_nat (length (name' :: events')) =? 0) with false. cbv iota.
  destruct (Forall_Exists_dec (fun x => ~ wildcard_name x) wildcard_name
              (fun x => match wildcard_name_decide x with
                        | left H => right H
                        | right H => left H
                        end) (name :: events)) as [Hall | Hex].
  - assert (Hall' : Forall (fun x => ~ wildcard_name x) (name' :: events')).
    { rewrite Forall_forall in *. intros x Hx. apply Hall. by apply Hsame. }
    rewrite (newSubscriber_names_filter _ _ Hall), (newSubscriber_names_filter _ _ Hall').
    assert (Hset : (list_to_set (strip_custom <$> name :: events) ∪ ∅ : gset string) =
                   list_to_set (strip_custom <$> name' :: events') ∪ ∅).
    { apply set_eq. intros x.
      rewrite !elem_of_union, !elem_of_list_to_set, !list_elem_of_fmap. naive_solver. }
    by rewrite Hset.
  - assert (Hex' : Exists wildcard_name (name' :: events')).
    { rewrite Exists_exists in *. destruct Hex as (x & Hx & Hw). exists x.
      split; [by apply Hsame | done]. }
    by rewrite (newSubscriber_names_wildcard _ _ Hex), (newSubscriber_names_wildcard _ _ Hex').
Qed.

Lemma newSubscriber_set_witness :
  newSubscriber (Some 7%nat) ["HEARTBEAT"; "API"; "HEARTBEAT"] =
  newSubscriber (Some 7%nat) ["API"; "HEARTBEAT"].
Proof.
  apply (newSubscriber_set (Some 7%nat) ["HEARTBEAT"; "API"; "HEARTBEAT"] ["API"; "HEARTBEAT"]).
  intros name. rewrite !elem_of_cons, !elem_of_nil. tauto.
Defined.

Lemma Handle_takes (s : subscriber) (e : Event) (chans : channels) :
  Handle s e chans = (takes s e, if takes s e then chan_send (Send s) e chans else chans).
Proof.
  unfold takes, Handle. by destruct (has_Name s (Name e) || (len_Names s =? 0)).
Qed.

Lemma dispatch_fold (subs : list subscriber) (e : Event) (chans : channels) (ch : nat) :
  foldl (fun st s => snd (Handle s e st)) chans subs !! ch =
  match deliveries subs e ch with
  | O => chans !! ch
  | S k => Some (default [] (chans !! ch) ++ replicate (S k) e)%list
  end.
Proof.
  revert chans. induction subs as [|s subs IH]; intros chans; [done|].
  simpl foldl. rewrite IH, Handle_takes. simpl snd. unfold deliveries in *.
  destruct (decide (Send s = ch /\ takes s e = true)) as [[<- Ht]|Hno].
  - rewrite filter_cons_True by done. rewrite Ht. unfold chan_send.
    rewrite lookup_insert_eq. simpl length.
    destruct (length (filter _ subs)) as [|k]; [done|].
    simpl. by rewrite <- app_assoc.
  - rewrite filter_cons_False by done.
    replace ((if takes s e then chan_send (Send s) e chans else chans) !! ch)
      with (chans !! ch); [done|].
    destruct (takes s e) eqn:Ht; [|done]. unfold chan_send.
    rewrite lookup_insert_ne; [done|]. intros E. by apply Hno.
Qed.

Lemma deliveries_none (subs : list subscriber) (e : Event) (ch : nat) :
  (forall s, s ∈ subs -> ~ (Send s = ch /\ takes s e = true)) -> deliveries subs e ch = O.
Proof.
  unfold deliveries. induction subs as [|s subs IH]; intros H; [done|].
  rewrite filter_cons_False by (apply H; by left).
  apply IH. intros s' Hs'. apply H. by right.
Qed.

(** X13.  An event is put on a channel once for every subscriber that holds
    the channel and takes the event, after what the channel held before; a
    channel that two such subscribers share receives the event twice, and a
    channel of no such subscriber is left as it was. *)
Theorem dispatch_delivers (m : Monitor) (e : Event) (chans : channels) (ch : nat) :
  dispatch m e chans !! ch =
    match deliveries (subscribers m) e ch with
    | O => chans !! ch
    | S k => Some (default [] (chans !! ch) ++ replicate (S k) e)%list
    end /\
  ((forall s, s ∈ subscribers m -> Send s = ch -> takes s e = false) ->
   dispatch m e chans !! ch = chans !! ch) /\
  (forall s1 s2 before after,
      subscribers m = (before ++ s1 :: s2 :: after)%list ->
      Send s1 = ch -> Send s2 = ch -> takes s1 e = true -> takes s2 e = true ->
      exists k, dispatch m e chans !! ch =
                Some (default [] (chans !! ch) ++ e :: e :: replicate k e)%list).
Proof.
  split; [apply dispatch_fold|]. split.
  - intros Hno. unfold dispatch. rewrite dispatch_fold.
    rewrite deliveries_none; [done|].
    intros s Hs [Hch Ht]. rewrite (Hno s Hs Hch) in Ht. discriminate.
  - intros s1 s2 before after Hsubs H1 H2 Ht1 Ht2. unfold dispatch.
    rewrite dispatch_fold, Hsubs. unfold deliveries.
    rewrite filter_app, !filter_cons_True, length_app by done. simpl length.
    replace (length (filter _ before) + S (S (length (filter
              (fun s => Send s = ch /\ takes s e = true) after))))%nat
      with (S (S (length (filter (fun s => Send s = ch /\ takes s e = true) before) +
                  length (filter (fun s => Send s = ch /\ takes s e = true) after))))
      by lia.
    by eexists.
Qed.

Lemma dispatch_delivers_witness :
  exists k,
    dispatch (mkMonitor "127.0.0.1:8021" "ClueCon" 5
                [mkSubscriber None 3; mkSubscriber (Some {["HEARTBEAT"]}) 3] 5)
      (named "HEARTBEAT") ∅ !! 3%nat =
    Some (default [] ((∅ : channels) !! 3%nat) ++
          named "HEARTBEAT" :: named "HEARTBEAT" :: replicate k (named "HEARTBEAT"))%list.
Proof.
  apply (proj2 (proj2 (dispatch_delivers
    (mkMonitor "127.0.0.1:8021" "ClueCon" 5
       [mkSubscriber None 3; mkSubscriber (Some {["HEARTBEAT"]}) 3] 5)
    (named "HEARTBEAT") ∅ 3%nat))
    (mkSubscriber None 3) (mkSubscriber (Some {["HEARTBEAT"]}) 3) [] []);
    by vm_compute.
Defined.

(** ** The streaming loop, frame by frame *)








Section Delivery.
Variable json_Unmarshal : string -> Event -> Event + error.
Variable ctx_Cause : option error.

Lemma Run_stream_S (fuel : nat) (m : Monitor) (c : Conn) (chans : channels) :
  Run_stream json_Unmarshal ctx_Cause (S fuel) m c chans =
  match internal.Read c with
  | None => None
  | Some (c', _, Some err) =>
      match ctx_Cause with
      | Some cause => Some (fmt_Errorf "done: %w" (arg_w cause), c', chans)
      | None => Some (fmt_Errorf "read: %w" (arg_w err), c', chans)
      end
  | Some (c', resp, None) =>
      if String.eqb (internal.ContentType resp) "text/event-plain" then
        match parseEvent json_Unmarshal (internal.Body resp) with
        | (_, Some err) => Some (fmt_Errorf "event parse: %w" (arg_w err), c', chans)
        | (event, None) =>
            Run_stream json_Unmarshal ctx_Cause fuel m c' (dispatch m event chans)
        end
      else if String.eqb (internal.ContentType resp) "text/disconnect-notice" then
        Some (fmt_Errorf "server closed: %w" (arg_w io_EOF), c', chans)
      else Run_stream json_Unmarshal ctx_Cause fuel m c' chans
  end.
Proof. reflexivity. Qed.

Lemma Read_event_frame (c : Conn) (n body rest : string) :
  Atoi n = Some (len body) -> len body <= maxAlloc ->
  Read (with_pending c (event_frame n body +:+ rest)) =
  Some (with_pending c rest, mkResponse "text/event-plain" "" "" body, None).
Proof.
  intros Hn Hmax.
  rewrite (Read_block_body _ [("Content-Length", n); ("Content-Type", "text/event-plain")]
             body rest (mkResponse "text/event-plain" "" "" "")).
  - done.
  - repeat constructor; simpl; try done; try (by apply absent_by_search);
      try (by apply (Atoi_wire_value _ _ Hn)).
    by intros (a & b & [= <- <-] & [? | ?]).
  - simpl. unfold store_header at 1. simpl. by rewrite Hn.
  - done.
  - done.
  - simpl pending. unfold event_frame. by rewrite !append_assoc.
Qed.

Lemma Read_end_of_stream (c : Conn) :
  Read (with_pending c "") = Some (with_pending c "", Response_zero, Some (ending (r c))).
Proof. done. Qed.

Lemma Run_stream_events (m : Monitor) (c : Conn) (items : list (string * string * Event))
    (chans : channels) :
  Forall (fun it => Atoi it.1.1 = Some (len it.1.2) /\ len it.1.2 <= maxAlloc /\
                    json_Unmarshal it.1.2 None = inl it.2) items ->
  Run_stream json_Unmarshal ctx_Cause (S (length items)) m
    (with_pending c (event_stream items)) chans =
  Some (match ctx_Cause with
        | Some cause => fmt_Errorf "done: %w" (arg_w cause)
        | None => fmt_Errorf "read: %w" (arg_w (ending (r c)))
        end,
        with_pending c "",
        foldl (fun st it => dispatch m it.2 st) chans items).
Proof.
  revert chans. induction items as [|[[n body] e] items IH]; intros chans Hall.
  - change (event_stream []) with "". rewrite Run_stream_S, Read_end_of_stream.
    by destruct ctx_Cause.
  - inversion Hall as [|? ? (Hn & Hm & Hd) Hrest]; subst. simpl in Hn, Hm, Hd.
    change (event_stream ((n, body, e) :: items))
      with (event_frame n body +:+ event_stream items).
    change (length ((n, body, e) :: items)) with (S (length items)).
    rewrite Run_stream_S, (Read_event_frame _ _ _ _ Hn Hm).
    simpl internal.ContentType. simpl internal.Body.
    change (String.eqb "text/event-plain" "text/event-plain") with true. cbv iota.
    unfold parseEvent. rewrite Hd. by rewrite IH.
Qed.

End Delivery.

(** X15.  A stream of event frames, each with its content length and a body
    that decodes, is delivered whole and in order: the loop of [Run] hands
    the events to the subscribers one after the other, first frame first, and
    ends only where the stream ends, with the cause of the cancellation if
    there is one and with the error of the stream if not. *)
Theorem Run_delivers_in_order (json_Unmarshal : string -> Event -> Event + error)
    (ctx_Cause : option error) (m : Monitor) (c : Conn)
    (items : list (string * string * Event)) (chans : channels) :
  Forall (fun it => Atoi it.1.1 = Some (len it.1.2) /\ len it.1.2 <= maxAlloc /\
                    json_Unmarshal it.1.2 None = inl it.2) items ->
  Run_stream json_Unmarshal ctx_Cause (Run_fuel (with_pending c (event_stream items))) m
    (with_pending c (event_stream items)) chans =
  Some (match ctx_Cause with
        | Some cause => fmt_Errorf "done: %w" (arg_w cause)
        | None => fmt_Errorf "read: %w" (arg_w (ending (r c)))
        end,
        with_pending c "",
        foldl (fun st it => dispatch m it.2 st) chans items).
Proof.
  intros Hall. apply (Run_stream_agree _ _ (S (length items))).
  by apply Run_stream_events.
Qed.

Lemma Run_delivers_in_order_witness :
  Run_stream json.Unmarshal None
    (Run_fuel (with_pending (peer "")
                 (event_stream [("26", object [("Event-Name", "HEARTBEAT")],
                                 named "HEARTBEAT");
                                ("20", object [("Event-Name", "API")], named "API")])))
    (mkMonitor "127.0.0.1:8021" "ClueCon" 5 [mkSubscriber None 3] 5)
    (with_pending (peer "")
       (event_stream [("26", object [("Event-Name", "HEARTBEAT")], named "HEARTBEAT");
                      ("20", object [("Event-Name", "API")], named "API")])) ∅ =
  Some (fmt_Errorf "read: %w" (arg_w (ending (r (peer "")))),
        with_pending (peer "") "",
        foldl (fun st it => dispatch (mkMonitor "127.0.0.1:8021" "ClueCon" 5
                                        [mkSubscriber None 3] 5) it.2 st) ∅
          [("26", object [("Event-Name", "HEARTBEAT")], named "HEARTBEAT");
           ("20", object [("Event-Name", "API")], named "API")]).
Proof.
  apply (Run_delivers_in_order json.Unmarshal None
           (mkMonitor "127.0.0.1:8021" "ClueCon" 5 [mkSubscriber None 3] 5) (peer "")
           [("26", object [("Event-Name", "HEARTBEAT")], named "HEARTBEAT");
            ("20", object [("Event-Name", "API")], named "API")] ∅).
  repeat constructor; by vm_compute.
Defined.

(** ** Sequence numbers and time stamps *)

Lemma digit_range (c : ascii) (d : Z) : digit c = Some d -> 0 <= d <= 9.
Proof.
  unfold digit. destruct (Z.leb_spec 48 (Z.of_N (N_of_ascii c))); simpl; [|discriminate].
  destruct (Z.leb_spec (Z.of_N (N_of_ascii c)) 57); [|discriminate].
  intros [= <-]. lia.
Qed.

Lemma digits_grow (s : string) (acc v : Z) : 0 <= acc -> digits s acc = Some v -> acc <= v.
Proof.
  revert acc. induction s as [|c s IH]; intros acc Hacc; simpl; [intros [= <-]; lia|].
  destruct (digit c) as [d|] eqn:Ed; [|discriminate].
  apply digit_range in Ed. intros H. apply IH in H; lia.
Qed.

(** On a string of digits [ParseUint] gives the number they spell, or the
    largest value and a range error if that number leaves 64 bits. *)
Lemma ParseUint_loop_digits (s : string) (n v : Z) :
  0 <= n <= strconv.maxUint64 -> digits s n = Some v ->
  strconv.ParseUint_loop s n =
  if v <=? strconv.maxUint64 then (v, None) else (strconv.maxUint64, Some strconv.ErrRange).
Proof.
  revert n. induction s as [|c s IH]; intros n Hn; simpl.
  - intros [= <-]. by destruct (Z.leb_spec n strconv.maxUint64); [|lia].
  - change (strconv.decimal c) with (digit c).
    destruct (digit c) as [d|] eqn:Ed; [|discriminate].
    pose proof (digit_range _ _ Ed) as Hd. intros Hv.
    assert (Hge : n * 10 + d <= v) by (apply (digits_grow s); [lia | done]).
    change (strconv.maxUint64 / 10 + 1) with 1844674407370955162.
    unfold strconv.maxUint64 in *. change (2 ^ 64 - 1) with 18446744073709551615 in *.
    destruct (Z.geb_spec n 1844674407370955162).
    { by destruct (Z.leb_spec v 18446744073709551615); [lia|]. }
    destruct (Z.gtb_spec (n * 10 + d) 18446744073709551615).
    { by destruct (Z.leb_spec v 18446744073709551615); [lia|]. }
    apply IH; [lia | done].
Qed.

Lemma ParseUint_loop_range (s : string) (n : Z) :
  0 <= n <= strconv.maxUint64 ->
  0 <= fst (strconv.ParseUint_loop s n) <= strconv.maxUint64.
Proof.
  revert n. induction s as [|c s IH]; intros n Hn; simpl; [done|].
  destruct (strconv.decimal c) as [d|] eqn:Ed; [|simpl; unfold strconv.maxUint64; lia].
  change (strconv.decimal c) with (digit c) in Ed. apply digit_range in Ed.
  destruct (n >=? strconv.maxUint64 / 10 + 1); [simpl; unfold strconv.maxUint64; lia|].
  destruct (Z.gtb_spec (n * 10 + d) strconv.maxUint64);
    [simpl; unfold strconv.maxUint64; lia|].
  apply IH. lia.
Qed.

Lemma ParseInt_range (s : string) : - 2 ^ 63 <= fst (strconv.ParseInt s) < 2 ^ 63.
Proof.
  assert (Hu : forall t, 0 <= fst (strconv.ParseUint t) <= strconv.maxUint64).
  { intros [|x t]; [simpl; unfold strconv.maxUint64; lia|].
    apply ParseUint_loop_range. unfold strconv.maxUint64. lia. }
  unfold strconv.ParseInt. destruct s as [|c s]; [simpl; lia|].
  destruct (if Ascii.eqb c "+" then (false, s)
            else if Ascii.eqb c "-" then (true, s) else (false, String c s)) as [neg s1].
  specialize (Hu s1). destruct (strconv.ParseUint s1) as [un [[]|]]; simpl in Hu;
    try (simpl; lia);
    destruct neg; simpl;
    repeat match goal with
           | |- context [?a >=? ?b] => destruct (Z.geb_spec a b)
           | |- context [?a >? ?b] => destruct (Z.gtb_spec a b)
           end; simpl; lia.
Qed.

Lemma ParseInt_digits (s : string) (v : Z) :
  s <> "" -> digits s 0 = Some v ->
  strconv.ParseInt s =
  if v <? 2 ^ 63 then (v, None) else (2 ^ 63 - 1, Some strconv.ErrRange).
Proof.
  intros Hne Hv. destruct s as [|c s]; [done|].
  assert (Hc : is_Some (digit c)) by (eapply digits_all; [done | apply contains_cons; by left]).
  unfold strconv.ParseInt.
  destruct (Ascii.eqb_spec c "+") as [->|]; [by destruct Hc|].
  destruct (Ascii.eqb_spec c "-") as [->|]; [by destruct Hc|].
  unfold strconv.ParseUint.
  rewrite (ParseUint_loop_digits _ 0 v); [|unfold strconv.maxUint64; lia | done].
  assert (Hge : 0 <= v) by (apply (digits_grow (String c s)); [lia | done]).
  unfold strconv.maxUint64. change (2 ^ 64 - 1) with 18446744073709551615.
  change (2 ^ 63) with 9223372036854775808.
  destruct (Z.leb_spec v 18446744073709551615), (Z.ltb_spec v 9223372036854775808); simpl;
    repeat match goal with
           | |- context [?a >=? ?b] => destruct (Z.geb_spec a b)
           end; simpl; try lia; done.
Qed.

(** X16.  [Sequence] always lies within [int64].  It is 0 for an event
    without the header.  For a header of decimal digits it is the number they
    spell, or the largest [int64] if the number is larger: the range error of
    the parser is dropped and its clamped value is returned. *)
Theorem Event_Sequence (e : Event) :
  - 2 ^ 63 <= Sequence e < 2 ^ 63 /\
  (Get e eventSequenceKey = "" -> Sequence e = 0) /\
  (forall (m : gmap string string) (ds : string) (v : Z),
      ds <> "" -> digits ds 0 = Some v ->
      Sequence (Some (<[eventSequenceKey := ds]> m)) = Z.min v (2 ^ 63 - 1)).
Proof.
  split; [apply ParseInt_range|]. split.
  - unfold Sequence. by intros ->.
  - intros m ds v Hne Hv. unfold Sequence, Get. rewrite lookup_insert_eq. simpl default.
    rewrite (ParseInt_digits _ _ Hne Hv).
    destruct (Z.ltb_spec v (2 ^ 63)); simpl; lia.
Qed.

Lemma Event_Sequence_witness :
  Sequence (Some (<[eventSequenceKey := "99999999999999999999"]> ∅)) =
  Z.min 99999999999999999999 (2 ^ 63 - 1).
Proof.
  apply (proj2 (proj2 (Event_Sequence None)) ∅ "99999999999999999999" 99999999999999999999).
  - discriminate.
  - reflexivity.
Defined.

(** X17.  [Timestamp] is the zero time for an event without the header and
    whenever the header does not parse.  For a header of decimal digits it is
    the time that many microseconds after the epoch if the number fits
    [int64], and the zero time if it does not: unlike [Sequence], it never
    uses a clamped value. *)
Theorem Event_Timestamp (e : Event) :
  (Get e eventTimestampKey = "" -> Timestamp e = Time_zero) /\
  (forall usec, Timestamp e = time_UnixMicro usec ->
                strconv.ParseInt (Get e eventTimestampKey) = (usec, None) /\
                - 2 ^ 63 <= usec < 2 ^ 63) /\
  (forall (m : gmap string string) (ds : string) (v : Z),
      ds <> "" -> digits ds 0 = Some v ->
      Timestamp (Some (<[eventTimestampKey := ds]> m)) =
      if v <? 2 ^ 63 then time_UnixMicro v else Time_zero).
Proof.
  split; [|split].
  - unfold Timestamp. by intros ->.
  - intros usec. unfold Timestamp.
    pose proof (ParseInt_range (Get e eventTimestampKey)) as Hr.
    destruct (strconv.ParseInt (Get e eventTimestampKey)) as [i [err|]]; [discriminate|].
    by intros [= <-].
  - intros m ds v Hne Hv. unfold Timestamp, Get. rewrite lookup_insert_eq. simpl default.
    rewrite (ParseInt_digits _ _ Hne Hv). by destruct (v <? 2 ^ 63).
Qed.

Lemma Event_Timestamp_witness :
  Timestamp (Some (<[eventTimestampKey := "1700000000000000"]> ∅)) =
  if 1700000000000000 <? 2 ^ 63 then time_UnixMicro 1700000000000000 else Time_zero.
Proof.
  apply (proj2 (proj2 (Event_Timestamp None)) ∅ "1700000000000000" 1700000000000000).
  - discriminate.
  - reflexivity.
Defined.

(** ** Log values *)

Lemma AsErr_message (resp : Response) (err : error) :
  AsErr resp = Some err -> exists msg, Error err = Some msg.
Proof.
  unfold AsErr, responseError.
  repeat match goal with
         | |- context [String.eqb ?a ?b] => destruct (String.eqb a b)
         | |- context [CutPrefix ?a ?b] => destruct (CutPrefix a b) as [? []]
         end; intros [= <-]; by eexists.
Qed.

(** X18.  The log value of a response has at most three attributes with
    distinct keys, the first of them the type.  It carries the message of the
    error when [AsErr] finds one, and then no length; without an error it
    carries the length of the body exactly when the body is not empty. *)
Theorem Response_LogValue (resp : Response) :
  (length (LogValue resp) <= 3)%nat /\
  head (LogValue resp) = Some ("type", slog_String (internal.ContentType resp)) /\
  NoDup (LogValue resp).*1 /\
  (forall err, AsErr resp = Some err ->
     exists msg, Error err = Some msg /\
                 ("error", slog_String msg) ∈ LogValue resp /\
                 ("length" ∉ (LogValue resp).*1)) /\
  (AsErr resp = None ->
     ("error" ∉ (LogValue resp).*1) /\
     (internal.Body resp <> "" ->
      ("length", slog_Int (len (internal.Body resp))) ∈ LogValue resp) /\
     (internal.Body resp = "" -> "length" ∉ (LogValue resp).*1)).
Proof.
  unfold LogValue.
  assert (Hlen : (len (internal.Body resp) >? 0) =
                 match internal.Body resp with "" => false | _ => true end).
  { destruct (internal.Body resp); [done|]. unfold len. simpl.
    by destruct (Z.gtb_spec (Z.of_nat (S (String.length s))) 0); [|lia]. }
  rewrite Hlen. clear Hlen.
  destruct (AsErr resp) as [err|] eqn:E.
  - destruct (AsErr_message _ _ E) as [msg Hmsg]. rewrite Hmsg. simpl default.
    destruct (String.eqb (JobUUID resp) ""); simpl;
      (split; [lia|]); (split; [done|]); (split; [repeat constructor; set_solver|]);
      (split; [|done]); intros ? [= <-]; exists msg; (split; [done|]); set_solver.
  - destruct (String.eqb (JobUUID resp) ""), (internal.Body resp) as [|x body]; simpl;
      (split; [lia|]); (split; [done|]); (split; [repeat constructor; set_solver|]);
      (split; [done|]); intros _; (split; [set_solver|]); split; try done; set_solver.
Qed.

Lemma Response_LogValue_witness :
  exists msg, Error (errors_New "no such channel") = Some msg /\
              ("error", slog_String msg) ∈
                LogValue (mkResponse "api/response" "" "" "-ERR no such channel") /\
              ("length" ∉
                 (LogValue (mkResponse "api/response" "" "" "-ERR no such channel")).*1).
Proof.
  apply (proj1 (proj2 (proj2 (proj2
    (Response_LogValue (mkResponse "api/response" "" "" "-ERR no such channel")))))).
  reflexivity.
Defined.

(** ** Subscribing *)

(** X19.  [Subscribe] panics on a [nil] channel and on no other input.  It
    puts the new subscriber after the earlier ones and changes nothing else
    of the monitor.  Once a subscriber without names, or with a wildcard among
    its names, is registered, the subscription command is
    ["event plain ALL"], whatever else is registered before or after. *)
Theorem Subscribe_then_subscribe (m : Monitor) (events : list string) :
  Subscribe m None events = None /\
  (forall ch, exists s,
      newSubscriber (Some ch) events = Some s /\ Send s = ch /\
      Subscribe m (Some ch) events =
        Some (mkMonitor (addr m) (password m) (dialTimeout m) (subscribers m ++ [s])
                (eslmon.cmdTimeout m))) /\
  (forall ch m1 m2 more range,
      events = [] \/ Exists wildcard_name events ->
      Subscribe m (Some ch) events = Some m1 ->
      subscribers m2 = (subscribers m1 ++ more)%list ->
      subscribe range m2 = "event plain ALL").
Proof.
  split; [done|]. split.
  - intros ch. unfold Subscribe, newSubscriber.
    destruct (Z.of_nat (length events) =? 0); by eexists.
  - intros ch m1 m2 more range Hwild Hsub Hm2. unfold subscribe.
    rewrite subscribe_events_wildcard; [done|].
    assert (Hs : newSubscriber (Some ch) events = Some (mkSubscriber None ch)).
    { unfold newSubscriber. destruct Hwild as [-> | H]; [done|].
      destruct events as [|name events]; [done|].
      by rewrite (newSubscriber_names_wildcard _ _ H). }
    unfold Subscribe in Hsub. rewrite Hs in Hsub. injection Hsub as <-. simpl in Hm2.
    assert (Hin : mkSubscriber None ch ∈ subscribers m2).
    { rewrite Hm2. set_solver. }
    apply Exists_exists. exists (mkSubscriber None ch). by split.
Qed.

Lemma Subscribe_then_subscribe_witness :
  subscribe elements
    (mkMonitor "127.0.0.1:8021" "ClueCon" 5
       [mkSubscriber (Some {["HEARTBEAT"]}) 1; mkSubscriber None 2;
        mkSubscriber (Some {["API"]}) 3] 5) = "event plain ALL".
Proof.
  apply (proj2 (proj2 (Subscribe_then_subscribe
    (mkMonitor "127.0.0.1:8021" "ClueCon" 5 [mkSubscriber (Some {["HEARTBEAT"]}) 1] 5)
    ["HEARTBEAT"; "ALL"])) 2%nat
    (mkMonitor "127.0.0.1:8021" "ClueCon" 5
       [mkSubscriber (Some {["HEARTBEAT"]}) 1; mkSubscriber None 2] 5)
    (mkMonitor "127.0.0.1:8021" "ClueCon" 5
       [mkSubscriber (Some {["HEARTBEAT"]}) 1; mkSubscriber None 2;
        mkSubscriber (Some {["API"]}) 3] 5)
    [mkSubscriber (Some {["API"]}) 3] elements).
  - right. apply Exists_cons_tl, Exists_cons_hd. right. right. reflexivity.
  - reflexivity.
  - reflexivity.
Defined.

(** X20.  The subscription command depends on the subscribers only through
    the set of all their names: however the same names are spread over the
    subscribers, and however often they are asked for, the command is the
    same. *)
Theorem subscribe_union (range : gset string -> list string) (m1 m2 : Monitor) :
  Forall (fun s => len_Names s <> 0) (subscribers m1) ->
  Forall (fun s => len_Names s <> 0) (subscribers m2) ->
  ⋃ (names_of <$> subscribers m1) = ⋃ (names_of <$> subscribers m2) ->
  subscribe range m1 = subscribe range m2.
Proof.
  intros H1 H2 Hsame. unfold subscribe.
  rewrite (subscribe_events_union _ _ H1), (subscribe_events_union _ _ H2).
  by rewrite Hsame.
Qed.

Lemma subscribe_union_witness :
  subscribe elements
    (mkMonitor "127.0.0.1:8021" "ClueCon" 5
       [mkSubscriber (Some {["HEARTBEAT"; "API"]}) 1; mkSubscriber (Some {["API"]}) 2] 5) =
  subscribe elements
    (mkMonitor "127.0.0.1:8021" "ClueCon" 5
       [mkSubscriber (Some {["API"]}) 1; mkSubscriber (Some {["HEARTBEAT"]}) 2] 5).
Proof.
  apply (subscribe_union elements
    (mkMonitor "127.0.0.1:8021" "ClueCon" 5
       [mkSubscriber (Some {["HEARTBEAT"; "API"]}) 1; mkSubscriber (Some {["API"]}) 2] 5)
    (mkMonitor "127.0.0.1:8021" "ClueCon" 5
       [mkSubscriber (Some {["API"]}) 1; mkSubscriber (Some {["HEARTBEAT"]}) 2] 5)).
  - repeat constructor; by vm_compute.
  - repeat constructor; by vm_compute.
  - by vm_compute.
Defined.

(** ** How a run ends *)

Section Endings.
Variable json_Unmarshal : string -> Event -> Event + error.
Variable ctx_Cause : option error.

(** The loop on a stream that starts with event frames. *)
Lemma Run_stream_events_then (fuel : nat) (m : Monitor) (c : Conn)
    (items : list (string * string * Event)) (tail : string) (chans : channels) :
  Forall (fun it => Atoi it.1.1 = Some (len it.1.2) /\ len it.1.2 <= maxAlloc /\
                    json_Unmarshal it.1.2 None = inl it.2) items ->
  Run_stream json_Unmarshal ctx_Cause (length items + fuel) m
    (with_pending c (event_stream items +:+ tail)) chans =
  Run_stream json_Unmarshal ctx_Cause fuel m (with_pending c tail)
    (foldl (fun st it => dispatch m it.2 st) chans items).
Proof.
  revert chans. induction items as [|[[n body] e] items IH]; intros chans Hall; [done|].
  inversion Hall as [|? ? (Hn & Hm & Hd) Hrest]; subst. simpl in Hn, Hm, Hd.
  change (event_stream ((n, body, e) :: items) +:+ tail)
    with ((event_frame n body +:+ event_stream items) +:+ tail).
  rewrite append_assoc.
  change (length ((n, body, e) :: items) + fuel)%nat with (S (length items + fuel)).
  rewrite Run_stream_S, (Read_event_frame _ _ _ _ Hn Hm).
  simpl internal.ContentType. simpl internal.Body.
  change (String.eqb "text/event-plain" "text/event-plain") with true. cbv iota.
  unfold parseEvent. rewrite Hd. by rewrite IH.
Qed.

Lemma Read_disconnect_frame (c : Conn) (n text rest : string) :
  Atoi n = Some (len text) -> len text <= maxAlloc ->
  Read (with_pending c (disconnect_frame n text +:+ rest)) =
  Some (with_pending c rest, mkResponse "text/disconnect-notice" "" "" text, None).
Proof.
  intros Hn Hmax.
  rewrite (Read_block_body _
             [("Content-Type", "text/disconnect-notice"); ("Content-Length", n)]
             text rest (mkResponse "text/disconnect-notice" "" "" "")).
  - done.
  - repeat constructor; simpl; try done; try (by apply absent_by_search);
      try (by apply (Atoi_wire_value _ _ Hn)).
    by intros (a & b & [= <- <-] & [? | ?]).
  - simpl. unfold store_header at 1. simpl. by rewrite Hn.
  - done.
  - done.
  - simpl pending. unfold disconnect_frame. by rewrite !append_assoc.
Qed.

End Endings.

(** X21.  A disconnect notice ends the run with the server-closed error,
    whether or not the cancellation has fired.  The events that came before
    it have been delivered in order, and whatever follows it in the stream is
    not read. *)
Theorem Run_ends_at_disconnect (json_Unmarshal : string -> Event -> Event + error)
    (ctx_Cause : option error) (m : Monitor) (c : Conn)
    (items : list (string * string * Event)) (n text rest : string) (chans : channels) :
  Forall (fun it => Atoi it.1.1 = Some (len it.1.2) /\ len it.1.2 <= maxAlloc /\
                    json_Unmarshal it.1.2 None = inl it.2) items ->
  Atoi n = Some (len text) -> len text <= maxAlloc ->
  Run_stream json_Unmarshal ctx_Cause
    (Run_fuel (with_pending c (event_stream items +:+ disconnect_frame n text +:+ rest))) m
    (with_pending c (event_stream items +:+ disconnect_frame n text +:+ rest)) chans =
  Some (fmt_Errorf "server closed: %w" (arg_w io_EOF),
        with_pending c rest,
        foldl (fun st it => dispatch m it.2 st) chans items).
Proof.
  intros Hall Hn Hmax. apply (Run_stream_agree _ _ (length items + 1)).
  rewrite (Run_stream_events_then _ _ _ _ _ _ _ _ Hall).
  by rewrite Run_stream_S, (Read_disconnect_frame _ _ _ _ Hn Hmax).
Qed.

Lemma Run_ends_at_disconnect_witness :
  Run_stream json.Unmarshal (Some ErrTimeout)
    (Run_fuel (with_pending (peer "")
                 (event_stream [("20", object [("Event-Name", "API")], named "API")] +:+
                  disconnect_frame "3" "bye" +:+ "Content-Type: auth/request")))
    (mkMonitor "127.0.0.1:8021" "ClueCon" 5 [mkSubscriber None 3] 5)
    (with_pending (peer "")
       (event_stream [("20", object [("Event-Name", "API")], named "API")] +:+
        disconnect_frame "3" "bye" +:+ "Content-Type: auth/request")) ∅ =
  Some (fmt_Errorf "server closed: %w" (arg_w io_EOF),
        with_pending (peer "") "Content-Type: auth/request",
        foldl (fun st it => dispatch (mkMonitor "127.0.0.1:8021" "ClueCon" 5
                                        [mkSubscriber None 3] 5) it.2 st) ∅
          [("20", object [("Event-Name", "API")], named "API")]).
Proof.
  apply (Run_ends_at_disconnect json.Unmarshal (Some ErrTimeout)
           (mkMonitor "127.0.0.1:8021" "ClueCon" 5 [mkSubscriber None 3] 5) (peer "")
           [("20", object [("Event-Name", "API")], named "API")] "3" "bye"
           "Content-Type: auth/request" ∅).
  - repeat constructor; by vm_compute.
  - reflexivity.
  - by vm_compute.
Defined.

(** X22.  An event frame whose body does not decode ends the run with the
    decoder's error, wrapped twice, whether or not any subscriber is
    registered.  The events before it have been delivered, the event itself
    reaches no channel, and the stream after the frame is not read. *)
Theorem Run_ends_at_bad_event (json_Unmarshal : string -> Event -> Event + error)
    (ctx_Cause : option error) (m : Monitor) (c : Conn)
    (items : list (string * string * Event)) (n body rest : string) (err : error)
    (chans : channels) :
  Forall (fun it => Atoi it.1.1 = Some (len it.1.2) /\ len it.1.2 <= maxAlloc /\
                    json_Unmarshal it.1.2 None = inl it.2) items ->
  Atoi n = Some (len body) -> len body <= maxAlloc ->
  json_Unmarshal body None = inr err ->
  Run_stream json_Unmarshal ctx_Cause
    (Run_fuel (with_pending c (event_stream items +:+ event_frame n body +:+ rest))) m
    (with_pending c (event_stream items +:+ event_frame n body +:+ rest)) chans =
  Some (fmt_Errorf "event parse: %w" (arg_w (fmt_Errorf "parse event: %w" (arg_w err))),
        with_pending c rest,
        foldl (fun st it => dispatch m it.2 st) chans items).
Proof.
  intros Hall Hn Hmax Herr. apply (Run_stream_agree _ _ (length items + 1)).
  rewrite (Run_stream_events_then _ _ _ _ _ _ _ _ Hall).
  rewrite Run_stream_S, (Read_event_frame _ _ _ _ Hn Hmax).
  simpl internal.ContentType. simpl internal.Body.
  change (String.eqb "text/event-plain" "text/event-plain") with true. cbv iota.
  unfold parseEvent. by rewrite Herr.
Qed.

Lemma Run_ends_at_bad_event_witness :
  Run_stream json.Unmarshal None
    (Run_fuel (with_pending (peer "") (event_stream [] +:+ event_frame "2" "{]" +:+ "")))
    (mkMonitor "127.0.0.1:8021" "ClueCon" 5 [] 5)
    (with_pending (peer "") (event_stream [] +:+ event_frame "2" "{]" +:+ "")) ∅ =
  Some (fmt_Errorf "event parse: %w"
          (arg_w (fmt_Errorf "parse event: %w" (arg_w json_error))),
        with_pending (peer "") "",
        foldl (fun st it => dispatch (mkMonitor "127.0.0.1:8021" "ClueCon" 5 [] 5) it.2 st)
          ∅ ([] : list (string * string * Event))).
Proof.
  apply (Run_ends_at_bad_event json.Unmarshal None
           (mkMonitor "127.0.0.1:8021" "ClueCon" 5 [] 5) (peer "") [] "2" "{]" ""
           json_error ∅).
  - constructor.
  - reflexivity.
  - by vm_compute.
  - reflexivity.
Defined.
